(** * Duplicate-rate checker: n-gram shingling and bag Jaccard similarity

    A shallow embedding of [main.c]: the two normalisation passes
    ([to_lower_case], [remove_punctuation]), the chained hash table of
    3-grams ([hash_function], [addhash], [generate_ngrams]), the
    intersection / union counters and the final [float] quotient.

    Conventions of the embedding.
    - A [char] is a [byte]; a [char *] is the list of the bytes from the
      pointer to the end of its array.  The string functions stop at the first
      NUL byte; the end of the list stands for the end of the array (the
      buffers of [main] always hold a NUL, so that case is not reached by
      them).
    - [int] values are [Z]; every counter of the program is bounded by the
      length of a text buffer ([MAX_FILE_SIZE]), so no [int] computation
      leaves its range.  [unsigned int] arithmetic is written with its
      reduction modulo [2^32].
    - [float] is IEEE binary32, taken from the parametric specification
      [SpecFloat] with a 24-bit significand and [emax = 128]. *)

From Stdlib Require Import ZArith List Lia Bool.
From Stdlib Require Import Strings.Byte.
From Stdlib Require Import Floats.SpecFloat.
From stdpp Require Import base option list countable gmap fin_maps.

Local Open Scope Z_scope.

(** ** Constants of [main.c] *)

Definition MAX_FILE_SIZE : Z := 1000000.
Definition N_GRAM : nat := 3.
Definition MAX_NGRAMS : Z := 50000.
Definition HASH_TABLE_SIZE : Z := 100003.

(** ** Bytes and C strings *)

#[global] Instance byte_eq_dec : EqDecision byte := Byte.byte_eq_dec.

#[global] Instance byte_countable : Countable byte :=
  inj_countable Byte.to_N Byte.of_N Byte.of_to_N.

(** The value of a byte read as an [unsigned char]. *)
Definition uchar (c : byte) : Z := Z.of_N (Byte.to_N c).

(** Storing an [int] into a [char]: the low eight bits are kept. *)
Definition char_of_int (z : Z) : byte :=
  default x00 (Byte.of_N (Z.to_N (z mod 256))).

Definition NUL : byte := x00.

Definition is_nul (c : byte) : bool := bool_decide (c = NUL).

(** [strlen]. *)
Fixpoint strlen (s : list byte) : nat :=
  match s with
  | [] => 0%nat
  | c :: rest => if is_nul c then 0%nat else S (strlen rest)
  end.

(** The text a buffer holds: its bytes before the first NUL. *)
Fixpoint c_str (s : list byte) : list byte :=
  match s with
  | [] => []
  | c :: rest => if is_nul c then [] else c :: c_str rest
  end.

(** [strcmp]: difference of the first pair of differing bytes, read as
    [unsigned char]; the end of an array reads as a NUL. *)
Fixpoint strcmp (s1 s2 : list byte) : Z :=
  match s1, s2 with
  | [], [] => 0
  | [], c2 :: _ => uchar NUL - uchar c2
  | c1 :: _, [] => uchar c1 - uchar NUL
  | c1 :: r1, c2 :: r2 =>
      if bool_decide (c1 = c2)
      then (if is_nul c1 then 0 else strcmp r1 r2)
      else uchar c1 - uchar c2
  end.

(** [strncpy dst src n], as the [n] bytes written to [dst]: the bytes of
    [src] up to its NUL, then NUL padding. *)
Fixpoint strncpy (src : list byte) (n : nat) : list byte :=
  match n with
  | O => []
  | S n' =>
      match src with
      | [] => replicate n NUL
      | c :: rest => if is_nul c then replicate n NUL else c :: strncpy rest n'
      end
  end.

(** ** Sample buffers *)

(** The bytes of a string literal followed by its terminator. *)
Definition c_string (s : list byte) : list byte := s ++ [NUL].

Definition text_abcabc : list byte :=
  c_string ["a"; "b"; "c"; "a"; "b"; "c"]%byte.
Definition text_abxabc : list byte :=
  c_string ["a"; "b"; "x"; "a"; "b"; "c"]%byte.
Definition text_aaaa : list byte := c_string ["a"; "a"; "a"; "a"]%byte.
Definition text_bbbb : list byte := c_string ["b"; "b"; "b"; "b"]%byte.
Definition text_ab : list byte := c_string ["a"; "b"]%byte.
Definition text_ABC : list byte := c_string ["A"; "B"; "C"]%byte.
Definition text_abc : list byte := c_string ["a"; "b"; "c"]%byte.

(** ["aaz"] and ["ac8"] have the same DJB2 value, hence the same slot in a
    table of any size. *)
Definition text_aazac8 : list byte :=
  c_string ["a"; "a"; "z"; "a"; "c"; "8"]%byte.

(** Two different texts with the same windows, ["aba"] and ["bab"]. *)
Definition text_abab : list byte := c_string ["a"; "b"; "a"; "b"]%byte.
Definition text_baba : list byte := c_string ["b"; "a"; "b"; "a"]%byte.

(** A buffer with bytes behind its first NUL. *)
Definition bytes_Ab : list byte := ["A"; "!"; "b"]%byte.
Definition bytes_cd : list byte := ["c"; "d"]%byte.

Section Program.

(** Whether plain [char] is signed is left to the platform by C; the
    program is embedded for both choices. *)
Variable char_signed : bool.

(** Integer promotion of a plain [char]. *)
Definition int_of_char (c : byte) : Z :=
  if char_signed && (128 <=? uchar c) then uchar c - 256 else uchar c.

(** ** Normalizer *)

(** [isalnum] in the "C" locale (the program never calls [setlocale]). *)
Definition isalnum (c : Z) : bool :=
  ((48 <=? c) && (c <=? 57)) || ((65 <=? c) && (c <=? 90))
  || ((97 <=? c) && (c <=? 122)).

(** The test of the [if] in [remove_punctuation]. *)
Definition keep_char (c : byte) : bool :=
  isalnum (uchar c) || (int_of_char c =? 32)
  || negb (Z.land (int_of_char c) 128 =? 0).

(** [remove_punctuation]: the [src]/[dst] two-pointer loop, writing into the
    buffer it reads.  [fuel] bounds the iterations; the loop leaves as soon
    as [src] reaches a NUL (or the end of the array). *)
Fixpoint remove_punctuation_loop (fuel : nat) (buf : list byte)
         (src dst : nat) : list byte :=
  match fuel with
  | O => buf
  | S fuel' =>
      match buf !! src with
      | None => <[dst := NUL]> buf
      | Some c =>
          if is_nul c then <[dst := NUL]> buf
          else if keep_char c
               then remove_punctuation_loop fuel' (<[dst := c]> buf) (S src) (S dst)
               else remove_punctuation_loop fuel' buf (S src) dst
      end
  end.

Definition remove_punctuation (str : list byte) : list byte :=
  remove_punctuation_loop (S (length str)) str 0 0.

(** One step of the loop of [to_lower_case]. *)
Definition lower_char (c : byte) : byte :=
  if (65 <=? int_of_char c) && (int_of_char c <=? 90)
  then char_of_int (int_of_char c + 32)
  else c.

(** [to_lower_case]: the buffer after the loop; bytes from the first NUL on
    are not visited. *)
Fixpoint to_lower_case (str : list byte) : list byte :=
  match str with
  | [] => []
  | c :: rest => if is_nul c then str else lower_char c :: to_lower_case rest
  end.

(** ** Hash table of n-grams *)

(** A node of a chain: the [gram] array of [N_GRAM + 1] bytes and the
    occurrence counter.  The [next] pointer is the tail of the list. *)
Record NGramNode := { gram : list byte; count : Z }.

(** [table] is the array of chain heads, [size] the number of slots. *)
Record HashTable := { table : list (list NGramNode); size : Z }.

(** [calloc] gives [size] empty chains. *)
Definition create_hash_table (size : Z) : HashTable :=
  {| table := replicate (Z.to_nat size) []; size := size |}.

(** The chain at [ht->table[index]]. *)
Definition bucket (ht : HashTable) (index : Z) : list NGramNode :=
  default [] (table ht !! Z.to_nat index).

Definition UINT_MOD : Z := 2 ^ 32.

(** The [while] loop of [hash_function] on an [unsigned int] accumulator;
    [c] is converted to [unsigned int] by the addition. *)
Fixpoint hash_loop (str : list byte) (hash : Z) : Z :=
  match str with
  | [] => hash
  | c :: rest =>
      if is_nul c then hash
      else hash_loop rest
             (((Z.shiftl hash 5 mod UINT_MOD + hash) mod UINT_MOD
               + int_of_char c) mod UINT_MOD)
  end.

(** DJB2, reduced modulo the table size ([table_size] is converted to
    [unsigned int] by [%]). *)
Definition hash_function (str : list byte) (table_size : Z) : Z :=
  hash_loop str 5381 mod (table_size mod UINT_MOD).

(** The search loop of [addhash] on one chain: [Some] of the chain with the
    matching counter incremented, [None] when the loop runs off the end. *)
Fixpoint addhash_chain (current : list NGramNode) (g : list byte)
  : option (list NGramNode) :=
  match current with
  | [] => None
  | node :: next =>
      if strcmp (gram node) g =? 0
      then Some ({| gram := gram node; count := count node + 1 |} :: next)
      else cons node <$> addhash_chain next g
  end.

Definition addhash (ht : HashTable) (g : list byte) : HashTable :=
  let index := hash_function g (size ht) in
  match addhash_chain (bucket ht index) g with
  | Some chain' =>
      {| table := <[Z.to_nat index := chain']> (table ht); size := size ht |}
  | None =>
      let new_node := {| gram := strncpy g N_GRAM ++ [NUL]; count := 1 |} in
      {| table := <[Z.to_nat index := new_node :: bucket ht index]> (table ht);
         size := size ht |}
  end.

(** The body of the [for] loop of [generate_ngrams] at offset [i]. *)
Definition ngram_at (text : list byte) (i : nat) : list byte :=
  strncpy (drop i text) N_GRAM ++ [NUL].

(** [generate_ngrams]: [i] runs from [0] while [i <= len - N_GRAM]. *)
Definition generate_ngrams (text : list byte) (ht : HashTable) : HashTable :=
  let len := Z.of_nat (strlen text) in
  foldl (fun ht i => addhash ht (ngram_at text i)) ht
        (seq 0 (Z.to_nat (len - Z.of_nat N_GRAM + 1))).

(** ** Similarity engine *)

(** The inner [while] of [get_intersection_count]: what one node of the
    first table adds to the counter. *)
Fixpoint match_in_chain (current : NGramNode) (temp : list NGramNode) : Z :=
  match temp with
  | [] => 0
  | node :: next =>
      if strcmp (gram current) (gram node) =? 0
      then (if count current <? count node then count current else count node)
      else match_in_chain current next
  end.

Definition get_intersection_count (ht1 ht2 : HashTable) : Z :=
  foldl (fun intersection i =>
           foldl (fun intersection current =>
                    intersection
                    + match_in_chain current
                        (bucket ht2 (hash_function (gram current) (size ht2))))
                 intersection (bucket ht1 (Z.of_nat i)))
        0 (seq 0 (Z.to_nat (size ht1))).

(** One of the two counting loops of [get_union_count]. *)
Definition add_counts (ht : HashTable) (union_count : Z) : Z :=
  foldl (fun union_count i =>
           foldl (fun union_count current => union_count + count current)
                 union_count (bucket ht (Z.of_nat i)))
        union_count (seq 0 (Z.to_nat (size ht))).

Definition get_union_count (ht1 ht2 : HashTable) : Z :=
  add_counts ht2 (add_counts ht1 0).

(** IEEE binary32. *)
Definition prec32 : Z := 24.
Definition emax32 : Z := 128.

(** Conversion [(float) n] of an [int], rounding to nearest even. *)
Definition float_of_int (n : Z) : spec_float :=
  binary_normalize prec32 emax32 n 0 false.

(** Division of two [float]s, rounded once to binary32. *)
Definition float_div (x y : spec_float) : spec_float :=
  SFdiv prec32 emax32 x y.

Definition float_zero : spec_float := S754_zero false.
Definition float_one : spec_float := float_of_int 1.

(** The comparison [x <= y] of two [float]s. *)
Definition float_le (x y : spec_float) : bool := SFleb x y.

Definition calculate_jaccard_similarity (ht_original ht_plagiarized : HashTable)
  : spec_float :=
  let intersection := get_intersection_count ht_original ht_plagiarized in
  let union_total := get_union_count ht_original ht_plagiarized in
  let union_total := union_total - intersection in
  if union_total =? 0 then float_zero
  else float_div (float_of_int intersection) (float_of_int union_total).

(** ** Driver *)

(** [fread] of at most [MAX_FILE_SIZE - 1] bytes followed by the store of
    the terminator: the initialised part of the array. *)
Definition read_text (content : list byte) : list byte :=
  take (Z.to_nat (MAX_FILE_SIZE - 1)) content ++ [NUL].

(** The pipeline of [main] between reading a text and building its table. *)
Definition preprocess (text : list byte) : list byte :=
  remove_punctuation (to_lower_case text).

(** [create_hash_table] followed by [generate_ngrams], as [main] calls them
    for each text. *)
Definition build_table (text : list byte) (table_size : Z) : HashTable :=
  generate_ngrams text (create_hash_table table_size).

Definition shingle_table (text : list byte) : HashTable :=
  build_table text HASH_TABLE_SIZE.

(** What [main] leaves behind: the exit status and, when the output file
    was written, the score printed into it. *)
Record outcome := { exit_code : Z; written : option spec_float }.

(** [main] on its argument count, the contents of the two input files
    ([None] when [fopen] fails) and whether the output file can be created. *)
Definition main (argc : Z) (original plagiarized : option (list byte))
           (output_ok : bool) : outcome :=
  if negb (argc =? 4) then {| exit_code := 1; written := None |}
  else match original with
  | None => {| exit_code := 1; written := None |}
  | Some original_content =>
      let original_text := read_text original_content in
      match plagiarized with
      | None => {| exit_code := 1; written := None |}
      | Some plagiarized_content =>
          let plagiarized_text := read_text plagiarized_content in
          let original_text := preprocess original_text in
          let plagiarized_text := preprocess plagiarized_text in
          let ht_original := shingle_table original_text in
          let ht_plagiarized := shingle_table plagiarized_text in
          let similarity :=
            calculate_jaccard_similarity ht_original ht_plagiarized in
          if output_ok then {| exit_code := 0; written := Some similarity |}
          else {| exit_code := 1; written := None |}
      end
  end.

(** ** The normalisation of one byte, in the words of the specification *)

Definition ascii_upper (v : Z) : bool := (65 <=? v) && (v <=? 90).
Definition ascii_lower (v : Z) : bool := (97 <=? v) && (v <=? 122).
Definition ascii_digit (v : Z) : bool := (48 <=? v) && (v <=? 57).
Definition ascii_alnum (v : Z) : bool :=
  ascii_upper v || ascii_lower v || ascii_digit v.

(** Uppercase letters become their lowercase counterparts (fixed offset
    32); another byte up to [0x7F] is kept exactly when it is alphanumeric
    or a space; a byte from [0x80] on is kept as it is. *)
Definition spec_normalize_byte (c : byte) : list byte :=
  let v := uchar c in
  if ascii_upper v then [char_of_int (v + 32)]
  else if v <=? 127 then (if ascii_alnum v || (v =? 32) then [c] else [])
  else [c].

(** ** The mapping a table stands for *)

(** The shingle of a node: the string in its [gram] array. *)
Definition key (node : NGramNode) : list byte := c_str (gram node).

(** Every node of the table, slot after slot, each chain from its head. *)
Definition nodes (ht : HashTable) : list NGramNode := mjoin (table ht).

Definition entry (node : NGramNode) : list byte * Z := (key node, count node).

(** The ShingleSet held by a table: shingle to occurrence count. *)
Definition shingle_map (ht : HashTable) : gmap (list byte) Z :=
  list_to_map (entry <$> nodes ht).

(** The first counter stored for [k] in a chain. *)
Fixpoint chain_count (k : list byte) (chain : list NGramNode) : option Z :=
  match chain with
  | [] => None
  | node :: next =>
      if decide (key node = k) then Some (count node) else chain_count k next
  end.

(** The representation invariant of a table: as many slots as [size] says
    (an [int] above zero), every node in the slot of its hash, no shingle
    stored twice, every counter at least one. *)
Definition wf_table (ht : HashTable) : Prop :=
  0 < size ht < 2 ^ 31
  ∧ length (table ht) = Z.to_nat (size ht)
  ∧ (∀ i chain node, table ht !! i = Some chain → node ∈ chain →
       hash_function (gram node) (size ht) = Z.of_nat i)
  ∧ NoDup (key <$> nodes ht)
  ∧ (∀ node, node ∈ nodes ht → 0 < count node).

(** ** ShingleSet and similarity, in the words of the specification *)

(** The windows of length [n]: one at every offset from [0] to
    [len - n], none when the text is shorter than [n]. *)
Definition windows (n : nat) (text : list byte) : list (list byte) :=
  (fun i => take n (drop i text)) <$> seq 0 (length text + 1 - n).

(** Increment the count of [k], inserting it with count 1 if absent. *)
Definition count_up (m : gmap (list byte) Z) (k : list byte)
  : gmap (list byte) Z :=
  match m !! k with
  | Some c => <[k := c + 1]> m
  | None => <[k := 1]> m
  end.

Definition spec_shingle_set (n : nat) (text : list byte) : gmap (list byte) Z :=
  foldl count_up ∅ (windows n text).

(** How many elements of [ws] are the byte sequence [k]. *)
Definition occ (k : list byte) (ws : list (list byte)) : Z :=
  Z.of_nat (length (List.filter (fun w => bool_decide (w = k)) ws)).

(** How many windows of the text are the byte sequence [k]. *)
Definition occurrences (n : nat) (text k : list byte) : Z :=
  occ k (windows n text).

Definition Zsum (l : list Z) : Z := foldr Z.add 0 l.

(** [total(X)]: the sum of all counts. *)
Definition bag_total (m : gmap (list byte) Z) : Z :=
  map_fold (fun _ c acc => acc + c) 0 m.

(** Sum over the keys present in both of the smaller count. *)
Definition spec_intersection (a b : gmap (list byte) Z) : Z :=
  bag_total (intersection_with (fun x y => Some (Z.min x y)) a b).

Definition spec_union (a b : gmap (list byte) Z) : Z :=
  bag_total a + bag_total b - spec_intersection a b.

Definition spec_score (a b : gmap (list byte) Z) : spec_float :=
  if spec_union a b =? 0 then float_zero
  else float_div (float_of_int (spec_intersection a b))
                 (float_of_int (spec_union a b)).

(** What a node of the first table contributes, read off the mapping of
    the second. *)
Definition share (b : gmap (list byte) Z) (kc : list byte * Z) : Z :=
  match b !! kc.1 with
  | Some c' => Z.min kc.2 c'
  | None => 0
  end.

(** Every stored count is at least one. *)
Definition positive_bag (m : gmap (list byte) Z) : Prop :=
  ∀ k c, m !! k = Some c → 0 < c.

(** A byte that may occur in a normalised text: a lowercase letter, a
    digit, a space, or a byte with the high bit set. *)
Definition normalized_char (c : byte) : bool :=
  ascii_lower (uchar c) || ascii_digit (uchar c) || (uchar c =? 32)
  || (128 <=? uchar c).

(** The text [main] extracts from the content of an input file. *)
Definition normal_text (content : list byte) : list byte :=
  c_str (preprocess (read_text content)).

(** Membership in appended and consed lists, unfolded. *)
Ltac unfold_elem := repeat (rewrite elem_of_app || rewrite elem_of_cons).

(** * Properties *)

(** ** C strings *)

Lemma is_nul_spec c : is_nul c = true ↔ c = NUL.
Proof. unfold is_nul. apply bool_decide_eq_true. Qed.

Lemma is_nul_false c : is_nul c = false ↔ c ≠ NUL.
Proof. unfold is_nul. apply bool_decide_eq_false. Qed.

Lemma uchar_range c : 0 <= uchar c < 256.
Proof.
  unfold uchar. pose proof (Byte.to_N_bounded c) as H. lia.
Qed.

Lemma uchar_inj c1 c2 : uchar c1 = uchar c2 → c1 = c2.
Proof.
  unfold uchar. intros H. apply N2Z.inj in H.
  assert (Some c1 = Some c2) as [=]; [|done].
  by rewrite <- !Byte.of_to_N, H.
Qed.

Lemma strlen_c_str s : strlen s = length (c_str s).
Proof. induction s as [|c s IH]; simpl; [done|]. destruct (is_nul c); simpl; auto. Qed.

Lemma strlen_le s : (strlen s ≤ length s)%nat.
Proof. induction s as [|c s IH]; simpl; [done|]. destruct (is_nul c); simpl; lia. Qed.

Lemma c_str_no_nul s : NUL ∉ c_str s.
Proof.
  induction s as [|c s IH]; simpl; [apply not_elem_of_nil|].
  destruct (is_nul c) eqn:E; [apply not_elem_of_nil|].
  apply is_nul_false in E. rewrite not_elem_of_cons. auto.
Qed.

Lemma c_str_id s : NUL ∉ s → c_str s = s.
Proof.
  induction s as [|c s IH]; simpl; [done|]. rewrite not_elem_of_cons.
  intros [Hc Hs]. assert (is_nul c = false) as -> by (apply is_nul_false; auto).
  by rewrite IH.
Qed.

Lemma c_str_app_nul pre post : NUL ∉ pre → c_str (pre ++ NUL :: post) = pre.
Proof.
  induction pre as [|c s IH]; simpl; [done|]. rewrite not_elem_of_cons.
  intros [Hc Hs]. assert (is_nul c = false) as -> by (apply is_nul_false; auto).
  by rewrite IH.
Qed.

Lemma c_str_app pre post : NUL ∉ pre → c_str (pre ++ post) = pre ++ c_str post.
Proof.
  induction pre as [|c s IH]; simpl; [done|]. rewrite not_elem_of_cons.
  intros [Hc Hs]. assert (is_nul c = false) as -> by (apply is_nul_false; auto).
  by rewrite IH.
Qed.

Lemma c_str_idemp s : c_str (c_str s) = c_str s.
Proof. apply c_str_id, c_str_no_nul. Qed.

Lemma c_str_terminated s : c_str (c_str s ++ [NUL]) = c_str s.
Proof. apply c_str_app_nul, c_str_no_nul. Qed.

(** A buffer is its text followed by what starts at the terminator. *)
Lemma c_str_drop s : s = c_str s ++ drop (strlen s) s.
Proof.
  induction s as [|c s IH]; simpl; [done|].
  destruct (is_nul c); simpl; [done|]. by rewrite <- IH.
Qed.

Lemma c_str_take n s : c_str (take n s) = take n (c_str s).
Proof.
  revert n. induction s as [|c s IH]; intros [|n]; simpl; try done.
  destruct (is_nul c); simpl; [done|]. by rewrite IH.
Qed.

Lemma strcmp_zero s1 s2 : strcmp s1 s2 = 0 ↔ c_str s1 = c_str s2.
Proof.
  revert s2. induction s1 as [|c1 r1 IH]; intros [|c2 r2]; simpl.
  - done.
  - destruct (is_nul c2) eqn:E.
    + apply is_nul_spec in E. subst. done.
    + apply is_nul_false in E. split; [|done]. intros H.
      destruct E. apply uchar_inj. lia.
  - destruct (is_nul c1) eqn:E.
    + apply is_nul_spec in E. subst. done.
    + apply is_nul_false in E. split; [|done]. intros H.
      destruct E. apply uchar_inj. lia.
  - case_bool_decide as Hc.
    + subst c2. destruct (is_nul c1); [done|]. rewrite IH.
      split; [by intros ->|by intros [=]].
    + split.
      * intros H. destruct Hc. apply uchar_inj. lia.
      * intros H. destruct (is_nul c1) eqn:E1, (is_nul c2) eqn:E2; try done.
        -- apply is_nul_spec in E1, E2. congruence.
        -- congruence.
Qed.

Lemma strncpy_fits g n :
  (strlen g ≤ n)%nat → c_str (strncpy g n ++ [NUL]) = c_str g.
Proof.
  revert g. induction n as [|n IH]; intros [|c g]; simpl; try done.
  - destruct (is_nul c); [done|lia].
  - destruct (is_nul c) eqn:E; simpl.
    + done.
    + rewrite E. intros H. rewrite IH; [done|lia].
Qed.

Lemma strncpy_prefix s n : (n ≤ strlen s)%nat → strncpy s n = take n (c_str s).
Proof.
  revert s. induction n as [|n IH]; intros [|c s]; simpl; try done; try lia.
  destruct (is_nul c); simpl; [lia|]. intros H. rewrite IH; [done|lia].
Qed.

Lemma c_str_drop_prefix s i : (i ≤ strlen s)%nat → c_str (drop i s) = drop i (c_str s).
Proof.
  revert s. induction i as [|i IH]; intros [|c s]; simpl; try done.
  destruct (is_nul c); simpl; [lia|]. intros H. apply IH. lia.
Qed.

Lemma strncpy_window s i n :
  (i + n ≤ strlen s)%nat → strncpy (drop i s) n = take n (drop i (c_str s)).
Proof.
  intros H. rewrite strncpy_prefix, c_str_drop_prefix; [done|lia|].
  rewrite strlen_c_str, c_str_drop_prefix, length_drop, <- strlen_c_str; lia.
Qed.

(** ** Normalizer *)

Lemma lower_char_nul c : lower_char c = NUL ↔ c = NUL.
Proof.
  unfold lower_char, int_of_char.
  destruct char_signed; destruct c; vm_compute; split; congruence.
Qed.

Lemma to_lower_case_buffer s :
  to_lower_case s = (lower_char <$> c_str s) ++ drop (strlen s) s.
Proof.
  induction s as [|c s IH]; simpl; [done|].
  destruct (is_nul c); simpl; [done|]. by rewrite IH.
Qed.

Lemma c_str_to_lower_case s : c_str (to_lower_case s) = lower_char <$> c_str s.
Proof.
  induction s as [|c s IH]; simpl; [done|].
  destruct (is_nul c) eqn:E; simpl; [by rewrite E|].
  assert (is_nul (lower_char c) = false) as ->.
  { apply is_nul_false. rewrite lower_char_nul. by apply is_nul_false. }
  by rewrite IH.
Qed.

Lemma keep_char_not_nul c : keep_char c = true → c ≠ NUL.
Proof.
  intros H ->. revert H. unfold keep_char, int_of_char.
  destruct char_signed; vm_compute; congruence.
Qed.

(** The loop invariant of [remove_punctuation]: [dst] never overtakes [src],
    so the bytes still to be read are the original ones. *)
Lemma remove_punctuation_loop_spec fuel buf src dst :
  (dst ≤ src)%nat → (strlen (drop src buf) < fuel)%nat →
  let kept := List.filter keep_char (c_str (drop src buf)) in
  let res := remove_punctuation_loop fuel buf src dst in
  take (dst + length kept) res = take dst buf ++ kept
  ∧ length res = length buf
  ∧ ((dst + length kept < length buf)%nat → res !! (dst + length kept)%nat = Some NUL)
  ∧ drop (S (src + strlen (drop src buf))) res
    = drop (S (src + strlen (drop src buf))) buf.
Proof.
  revert buf src dst. induction fuel as [|fuel IH]; intros buf src dst Hle Hfuel; [lia|].
  simpl. destruct (buf !! src) as [c|] eqn:Hsrc.
  - pose proof (lookup_lt_Some _ _ _ Hsrc) as Hlt.
    rewrite (drop_S _ _ _ Hsrc) in *. simpl in *.
    destruct (is_nul c) eqn:Hnul; simpl.
    + rewrite !Nat.add_0_r. repeat split.
      * by rewrite take_insert_ge, app_nil_r by lia.
      * by rewrite length_insert.
      * intros H. by apply list_lookup_insert_eq.
      * rewrite drop_insert_lt; [done|lia].
    + destruct (keep_char c) eqn:Hkeep; simpl.
      * specialize (IH (<[dst:=c]> buf) (S src) (S dst)).
        rewrite drop_insert_lt in IH by lia.
        destruct IH as (H1 & H2 & H3 & H4); [lia|lia|].
        rewrite length_insert in H2, H3.
        replace (dst + S _)%nat with
          (S dst + length (List.filter keep_char (c_str (drop (S src) buf))))%nat by lia.
        replace (S (src + S _)) with
          (S (S src + strlen (drop (S src) buf))) by lia.
        repeat split; [|done|done|].
        -- rewrite H1. rewrite (take_S_r _ _ c).
           ++ rewrite take_insert_ge by lia. by rewrite <- app_assoc.
           ++ apply list_lookup_insert_eq. lia.
        -- rewrite H4. rewrite drop_insert_lt; [done|lia].
      * specialize (IH buf (S src) dst).
        destruct IH as (H1 & H2 & H3 & H4); [lia|lia|].
        replace (S (src + S _)) with
          (S (S src + strlen (drop (S src) buf))) by lia.
        done.
  - pose proof (lookup_ge_None_1 _ _ Hsrc) as Hge.
    rewrite (drop_ge buf src) by lia. simpl. rewrite !Nat.add_0_r.
    repeat split.
    + by rewrite take_insert_ge, app_nil_r by lia.
    + by rewrite length_insert.
    + intros H. by apply list_lookup_insert_eq.
    + rewrite drop_insert_lt; [done|lia].
Qed.

Lemma filter_keep_no_nul l : NUL ∉ List.filter keep_char l.
Proof.
  rewrite list_elem_of_In, filter_In. intros [_ H].
  by apply keep_char_not_nul in H.
Qed.

(** The text left in the buffer by [remove_punctuation]. *)
Lemma c_str_remove_punctuation s :
  c_str (remove_punctuation s) = List.filter keep_char (c_str s).
Proof.
  unfold remove_punctuation.
  destruct (remove_punctuation_loop_spec (S (length s)) s 0 0) as (H1 & H2 & H3 & _).
  { lia. }
  { pose proof (strlen_le s). unfold drop. lia. }
  remember (remove_punctuation_loop (S (length s)) s 0 0) as res eqn:Hres.
  clear Hres. simpl in *. rewrite drop_0 in *.
  set (kept := List.filter keep_char (c_str s)) in *.
  rewrite <- (take_drop (length kept) res), H1.
  destruct (decide (length kept < length s)%nat) as [Hlt|Hge].
  - rewrite (drop_S _ _ _ (H3 Hlt)). apply c_str_app_nul, filter_keep_no_nul.
  - rewrite drop_ge by lia. rewrite app_nil_r. apply c_str_id, filter_keep_no_nul.
Qed.

(** Bytes behind the first NUL are left where they are. *)
Lemma remove_punctuation_tail s :
  drop (S (strlen s)) (remove_punctuation s) = drop (S (strlen s)) s.
Proof.
  unfold remove_punctuation.
  destruct (remove_punctuation_loop_spec (S (length s)) s 0 0) as (_ & _ & _ & H).
  { lia. }
  { pose proof (strlen_le s). unfold drop. lia. }
  done.
Qed.

Lemma normalize_byte_agrees c :
  (if keep_char (lower_char c) then [lower_char c] else []) = spec_normalize_byte c.
Proof.
  unfold keep_char, lower_char, spec_normalize_byte, int_of_char.
  destruct char_signed; destruct c; vm_compute; reflexivity.
Qed.

Lemma c_str_preprocess s :
  c_str (preprocess s) = List.concat (List.map spec_normalize_byte (c_str s)).
Proof.
  unfold preprocess. rewrite c_str_remove_punctuation, c_str_to_lower_case.
  induction (c_str s) as [|c l IH]; [done|].
  cbn [List.concat List.map]. rewrite <- normalize_byte_agrees, <- IH.
  rewrite fmap_cons. cbn [List.filter].
  by destruct (keep_char (lower_char c)).
Qed.

(** ** Hashing *)

Lemma hash_loop_c_str s h : hash_loop (c_str s) h = hash_loop s h.
Proof.
  revert h. induction s as [|c s IH]; intros h; simpl; [done|].
  destruct (is_nul c) eqn:E; simpl; [done|]. by rewrite E, IH.
Qed.

Lemma hash_function_c_str s n : hash_function (c_str s) n = hash_function s n.
Proof. unfold hash_function. by rewrite hash_loop_c_str. Qed.

Lemma hash_loop_range s h : 0 <= h < UINT_MOD → 0 <= hash_loop s h < UINT_MOD.
Proof.
  revert h. induction s as [|c s IH]; intros h Hh; simpl; [done|].
  destruct (is_nul c); [done|]. apply IH. apply Z.mod_pos_bound. by vm_compute.
Qed.

Lemma hash_function_range s n :
  0 < n < UINT_MOD → 0 <= hash_function s n < n.
Proof.
  intros Hn. unfold hash_function. rewrite (Z.mod_small n) by lia.
  apply Z.mod_pos_bound. lia.
Qed.

Lemma hash_function_strcmp s1 s2 n :
  strcmp s1 s2 = 0 → hash_function s1 n = hash_function s2 n.
Proof.
  intros H. apply strcmp_zero in H.
  by rewrite <- (hash_function_c_str s1), H, hash_function_c_str.
Qed.

(** ** Chains *)

Lemma strcmp_key n1 n2 : (strcmp (gram n1) (gram n2) =? 0) = bool_decide (key n1 = key n2).
Proof.
  unfold key. destruct (strcmp (gram n1) (gram n2) =? 0) eqn:E; symmetry.
  - apply bool_decide_eq_true, strcmp_zero. lia.
  - apply bool_decide_eq_false. rewrite <- strcmp_zero. lia.
Qed.

Lemma chain_count_Some k chain c :
  chain_count k chain = Some c →
  ∃ l1 node l2, chain = l1 ++ node :: l2 ∧ key node = k ∧ count node = c
                ∧ k ∉ key <$> l1.
Proof.
  induction chain as [|node next IH]; simpl; [done|].
  case_decide as Hk.
  - intros [= <-]. exists [], node, next. repeat split; [done|]. apply not_elem_of_nil.
  - intros H. destruct (IH H) as (l1 & nd & l2 & -> & Hnd & Hc & Hl1).
    exists (node :: l1), nd, l2. repeat split; try done.
    rewrite ?fmap_cons, not_elem_of_cons. auto.
Qed.

Lemma chain_count_None k chain :
  chain_count k chain = None ↔ k ∉ key <$> chain.
Proof.
  induction chain as [|node next IH]; simpl.
  - split; [intros _; apply not_elem_of_nil|done].
  - rewrite ?fmap_cons, not_elem_of_cons. case_decide as Hk.
    + split; [done|]. intros [H _]. by destruct H.
    + rewrite IH. intuition congruence.
Qed.

Lemma match_in_chain_count current chain :
  match_in_chain current chain
  = match chain_count (key current) chain with
    | Some c => Z.min (count current) c
    | None => 0
    end.
Proof.
  induction chain as [|node next IH]; simpl; [done|].
  rewrite strcmp_key. case_bool_decide as Hk.
  - rewrite decide_True by done.
    destruct (count current <? count node) eqn:E; lia.
  - rewrite decide_False by done. apply IH.
Qed.

Lemma addhash_chain_found chain g l1 node l2 :
  chain = l1 ++ node :: l2 → key node = c_str g → c_str g ∉ key <$> l1 →
  addhash_chain chain g
  = Some (l1 ++ {| gram := gram node; count := count node + 1 |} :: l2).
Proof.
  intros -> Hk. induction l1 as [|n l1 IH]; simpl.
  - intros _. assert ((strcmp (gram node) g =? 0) = true) as ->; [|done].
    apply Z.eqb_eq, strcmp_zero. exact Hk.
  - rewrite ?fmap_cons, not_elem_of_cons. intros [Hn Hl1].
    assert ((strcmp (gram n) g =? 0) = false) as ->.
    { apply Z.eqb_neq. rewrite strcmp_zero. unfold key in Hn. congruence. }
    by rewrite IH.
Qed.

Lemma addhash_chain_missing chain g :
  c_str g ∉ key <$> chain → addhash_chain chain g = None.
Proof.
  induction chain as [|n l IH]; simpl; [done|].
  rewrite ?fmap_cons, not_elem_of_cons. intros [Hn Hl].
  assert ((strcmp (gram n) g =? 0) = false) as ->.
  { apply Z.eqb_neq. rewrite strcmp_zero. unfold key in Hn. congruence. }
  by rewrite IH.
Qed.

(** ** Tables *)

Lemma bucket_lookup ht i chain :
  table ht !! i = Some chain → bucket ht (Z.of_nat i) = chain.
Proof. unfold bucket. rewrite Nat2Z.id. by intros ->. Qed.

Lemma bucket_nodes ht i node : node ∈ bucket ht i → node ∈ nodes ht.
Proof.
  unfold bucket, nodes. destruct (table ht !! Z.to_nat i) as [chain|] eqn:E; simpl.
  - intros H. apply list_elem_of_join. exists chain. split; [done|].
    by apply list_elem_of_lookup_2 in E.
  - by intros ?%elem_of_nil.
Qed.

Lemma table_split ht i :
  (i < length (table ht))%nat →
  table ht = take i (table ht) ++ bucket ht (Z.of_nat i) :: drop (S i) (table ht).
Proof.
  intros H. destruct (lookup_lt_is_Some_2 _ _ H) as [chain Hc].
  rewrite (bucket_lookup _ _ _ Hc). by rewrite take_drop_middle.
Qed.

Lemma nodes_split ht i :
  (i < length (table ht))%nat →
  nodes ht = mjoin (take i (table ht)) ++ bucket ht (Z.of_nat i)
             ++ mjoin (drop (S i) (table ht)).
Proof.
  intros H. unfold nodes. rewrite (table_split ht i H) at 1.
  by rewrite join_app.
Qed.

Lemma nodes_insert ht i chain :
  (i < length (table ht))%nat →
  mjoin (<[i := chain]> (table ht))
  = mjoin (take i (table ht)) ++ chain ++ mjoin (drop (S i) (table ht)).
Proof.
  intros H. rewrite insert_take_drop by done.
  by rewrite join_app.
Qed.

(** Under the invariant, a shingle is found by searching the chain of its
    hash, and nowhere else. *)
Lemma chain_count_spec ht k :
  wf_table ht →
  chain_count k (bucket ht (hash_function k (size ht))) = shingle_map ht !! k.
Proof.
  intros (Hsz & Hlen & Hhash & Hnd & Hpos). unfold shingle_map.
  destruct (chain_count k _) as [c|] eqn:E.
  - apply chain_count_Some in E as (l1 & node & l2 & Hb & Hk & Hc & _).
    symmetry. apply elem_of_list_to_map_1.
    + by rewrite <- list_fmap_compose.
    + apply list_elem_of_fmap. exists node. split; [by unfold entry; rewrite Hk, Hc|].
      apply (bucket_nodes _ (hash_function k (size ht))). rewrite Hb.
      rewrite elem_of_app, elem_of_cons. auto.
  - symmetry. apply not_elem_of_list_to_map_1.
    rewrite <- list_fmap_compose. intros Hin.
    apply list_elem_of_fmap in Hin as (node & Hk & Hin). simpl in Hk.
    apply list_elem_of_join in Hin as (chain & Hin & Hchain).
    apply list_elem_of_lookup in Hchain as [i Hi].
    pose proof (Hhash _ _ _ Hi Hin) as Hh.
    rewrite Hk, <- hash_function_c_str in E. fold (key node) in E.
    rewrite hash_function_c_str in E. unfold key in E.
    rewrite hash_function_c_str, Hh, (bucket_lookup _ _ _ Hi) in E.
    apply chain_count_None in E. apply E, list_elem_of_fmap. eauto.
Qed.

Lemma lookup_bucket ht i :
  (i < length (table ht))%nat → table ht !! i = Some (bucket ht (Z.of_nat i)).
Proof.
  intros H. destruct (lookup_lt_is_Some_2 _ _ H) as [chain Hc].
  by rewrite (bucket_lookup _ _ _ Hc).
Qed.

Lemma nodes_create n : nodes (create_hash_table n) = [].
Proof.
  unfold nodes, create_hash_table. simpl.
  induction (Z.to_nat n) as [|k IH]; simpl; done.
Qed.

Lemma wf_create n : 0 < n < 2 ^ 31 → wf_table (create_hash_table n).
Proof.
  intros Hn. unfold wf_table. rewrite nodes_create. simpl.
  repeat split; try lia.
  - by rewrite length_replicate.
  - intros i chain node Hi Hin. apply lookup_replicate in Hi as [-> _].
    by apply elem_of_nil in Hin.
  - constructor.
  - by intros node ?%elem_of_nil.
Qed.

Lemma shingle_map_create n : shingle_map (create_hash_table n) = ∅.
Proof. unfold shingle_map. by rewrite nodes_create. Qed.

Lemma list_to_map_middle_insert (l1 l2 : list (list byte * Z)) k c :
  k ∉ l1.*1 →
  list_to_map (l1 ++ (k, c) :: l2)
  = <[k := c]> (list_to_map (l1 ++ l2) : gmap (list byte) Z).
Proof.
  intros Hk. rewrite !list_to_map_app, list_to_map_cons.
  rewrite insert_union_r; [done|]. by apply not_elem_of_list_to_map_1.
Qed.

(** [addhash] keeps the invariant and counts its argument up by one. *)
Lemma addhash_spec ht g :
  wf_table ht → (strlen g ≤ N_GRAM)%nat →
  wf_table (addhash ht g)
  ∧ shingle_map (addhash ht g) = count_up (shingle_map ht) (c_str g).
Proof.
  intros Hwf Hg. pose proof Hwf as (Hsz & Hlen & Hhash & Hnd & Hpos).
  pose proof (chain_count_spec ht (c_str g) Hwf) as Hcc.
  rewrite hash_function_c_str in Hcc.
  pose proof (hash_function_range g (size ht)) as Hh.
  unfold addhash, count_up. rewrite <- Hcc.
  set (h := hash_function g (size ht)) in *.
  assert (0 <= h < size ht) as Hh' by (apply Hh; unfold UINT_MOD; lia).
  assert (Z.to_nat h < length (table ht))%nat as Hidx by lia.
  pose proof (lookup_bucket ht _ Hidx) as Hb. rewrite Z2Nat.id in Hb by lia.
  pose proof (nodes_split ht _ Hidx) as Hn. rewrite Z2Nat.id in Hn by lia.
  pose proof (nodes_insert ht (Z.to_nat h)) as Hi.
  destruct (chain_count (c_str g) (bucket ht h)) as [c|] eqn:E.
  - apply chain_count_Some in E as (l1 & node & l2 & Hc & Hk & Hcnt & Hl1).
    rewrite (addhash_chain_found _ _ _ _ _ Hc Hk Hl1).
    set (node' := {| gram := gram node; count := count node + 1 |}).
    specialize (Hi (l1 ++ node' :: l2) Hidx).
    rewrite Hc in Hn.
    set (N1 := mjoin (take (Z.to_nat h) (table ht))) in *.
    set (N2 := mjoin (drop (S (Z.to_nat h)) (table ht))) in *.
    split.
    + unfold wf_table, nodes. simpl. rewrite Hi. rewrite Hn in Hnd.
      repeat split; try lia.
      * by rewrite length_insert.
      * intros i chain nd Hlk Hin. destruct (decide (i = Z.to_nat h)) as [->|Hne].
        -- rewrite list_lookup_insert_eq in Hlk by done. injection Hlk as <-.
           rewrite Z2Nat.id by lia.
           apply elem_of_app in Hin as [Hin|Hin%elem_of_cons].
           ++ rewrite <- (Z2Nat.id h) by lia. apply (Hhash _ _ _ Hb).
              rewrite Hc, elem_of_app. auto.
           ++ destruct Hin as [->|Hin].
              ** change (gram node') with (gram node).
                 rewrite <- (Z2Nat.id h) by lia. apply (Hhash _ _ _ Hb).
                 rewrite Hc, elem_of_app, elem_of_cons. auto.
              ** rewrite <- (Z2Nat.id h) by lia. apply (Hhash _ _ _ Hb).
                 rewrite Hc, elem_of_app, elem_of_cons. auto.
        -- rewrite list_lookup_insert_ne in Hlk by done. eauto.
      * revert Hnd. by rewrite !fmap_app, !fmap_cons.
      * intros nd Hin. rewrite Hn in Hpos.
        assert (nd = node' ∨ nd ∈ N1 ++ (l1 ++ node :: l2) ++ N2) as [->|Hin'].
        { revert Hin. unfold_elem. intuition. }
        -- simpl. assert (0 < count node); [|lia]. apply Hpos.
           rewrite !elem_of_app, elem_of_cons. auto.
        -- by apply Hpos.
    + unfold shingle_map, nodes. simpl. rewrite Hi.
      fold (nodes ht). rewrite Hn in Hnd |- *.
      replace (N1 ++ (l1 ++ node' :: l2) ++ N2)
        with ((N1 ++ l1) ++ node' :: (l2 ++ N2)) by (by rewrite <- !app_assoc).
      replace (N1 ++ (l1 ++ node :: l2) ++ N2)
        with ((N1 ++ l1) ++ node :: (l2 ++ N2)) in * by (by rewrite <- !app_assoc).
      rewrite fmap_app, fmap_cons in Hnd.
      apply NoDup_app in Hnd as (_ & Hnd & _).
      assert (c_str g ∉ (entry <$> N1 ++ l1).*1) as Hfresh.
      { rewrite <- list_fmap_compose. intros Hin.
        apply (Hnd (c_str g)); [done|]. rewrite Hk. apply elem_of_cons. auto. }
      rewrite !(fmap_app entry (N1 ++ l1)), !fmap_cons.
      change (entry node') with (key node, count node + 1).
      change (entry node) with (key node, count node). rewrite Hk, Hcnt.
      rewrite !list_to_map_middle_insert by done.
      by rewrite insert_insert_eq.
  - apply chain_count_None in E. rewrite (addhash_chain_missing _ _ E).
    set (new_node := {| gram := strncpy g N_GRAM ++ [NUL]; count := 1 |}).
    specialize (Hi (new_node :: bucket ht h) Hidx).
    assert (key new_node = c_str g) as Hk by (by apply strncpy_fits).
    assert (c_str g ∉ key <$> nodes ht) as Hfresh.
    { intros Hin. pose proof (chain_count_spec ht (c_str g) Hwf) as Hs.
      rewrite hash_function_c_str in Hs. fold h in Hs.
      apply chain_count_None in E. rewrite E in Hs. symmetry in Hs.
      apply not_elem_of_list_to_map_2 in Hs. apply Hs.
      by rewrite <- list_fmap_compose. }
    set (N1 := mjoin (take (Z.to_nat h) (table ht))) in *.
    set (N2 := mjoin (drop (S (Z.to_nat h)) (table ht))) in *.
    split.
    + unfold wf_table, nodes. simpl. rewrite Hi.
      repeat split; try lia.
      * by rewrite length_insert.
      * intros i chain nd Hlk Hin. destruct (decide (i = Z.to_nat h)) as [->|Hne].
        -- rewrite list_lookup_insert_eq in Hlk by done. injection Hlk as <-.
           rewrite Z2Nat.id by lia.
           apply elem_of_cons in Hin as [->|Hin].
           ++ rewrite <- hash_function_c_str. fold (key new_node). rewrite Hk.
              apply hash_function_c_str.
           ++ rewrite <- (Z2Nat.id h) by lia. by apply (Hhash _ _ _ Hb).
        -- rewrite list_lookup_insert_ne in Hlk by done. eauto.
      * rewrite Hn in Hnd, Hfresh. revert Hnd Hfresh.
        rewrite !fmap_app, fmap_cons, Hk. intros Hnd Hfresh.
        apply NoDup_app in Hnd as (H1 & H2 & H3).
        apply not_elem_of_app in Hfresh as [F1 F2].
        rewrite <- app_comm_cons.
        apply NoDup_app. repeat split; [done| |].
        -- intros x Hx. rewrite not_elem_of_cons. split; [congruence|auto].
        -- by constructor.
      * intros nd Hin. rewrite Hn in Hpos.
        assert (nd = new_node ∨ nd ∈ N1 ++ bucket ht h ++ N2) as [->|Hin'].
        { revert Hin. unfold_elem. intuition. }
        -- simpl. lia.
        -- by apply Hpos.
    + unfold shingle_map, nodes. simpl. rewrite Hi.
      fold (nodes ht). rewrite Hn. rewrite Hn in Hfresh.
      rewrite !fmap_app, fmap_cons. unfold entry at 2. rewrite Hk. simpl.
      rewrite list_to_map_middle_insert; [done|].
      rewrite <- list_fmap_compose. intros Hin. apply Hfresh.
      rewrite fmap_app, elem_of_app. auto.
Qed.

(** ** Building a table from a text *)

Lemma ngram_at_window text i :
  (i + N_GRAM ≤ strlen text)%nat →
  c_str (ngram_at text i) = take N_GRAM (drop i (c_str text))
  ∧ (strlen (ngram_at text i) ≤ N_GRAM)%nat.
Proof.
  intros H. unfold ngram_at. rewrite strncpy_window by done.
  assert (c_str (take N_GRAM (drop i (c_str text)) ++ [NUL])
          = take N_GRAM (drop i (c_str text))) as Hc.
  { apply c_str_app_nul. intros Hin.
    apply subseteq_take, subseteq_drop in Hin. by apply (c_str_no_nul text). }
  split; [done|]. rewrite strlen_c_str, Hc, length_take. lia.
Qed.

Lemma generate_loop_spec text ht (offsets : list nat) :
  wf_table ht → Forall (fun i => i + N_GRAM ≤ strlen text)%nat offsets →
  let ht' := foldl (fun ht i => addhash ht (ngram_at text i)) ht offsets in
  wf_table ht'
  ∧ shingle_map ht'
    = foldl count_up (shingle_map ht)
        ((fun i => take N_GRAM (drop i (c_str text))) <$> offsets).
Proof.
  revert ht. induction offsets as [|i offsets IH]; intros ht Hwf Hall; [done|].
  apply Forall_cons in Hall as [Hi Hall].
  destruct (ngram_at_window text i Hi) as [Hc Hl].
  destruct (addhash_spec ht (ngram_at text i) Hwf Hl) as [Hwf' Hmap].
  specialize (IH _ Hwf' Hall). simpl in *. by rewrite Hmap, Hc in IH.
Qed.

Lemma generate_ngrams_spec text ht :
  wf_table ht →
  wf_table (generate_ngrams text ht)
  ∧ shingle_map (generate_ngrams text ht)
    = foldl count_up (shingle_map ht) (windows N_GRAM (c_str text)).
Proof.
  intros Hwf. unfold generate_ngrams, windows.
  replace (Z.to_nat (Z.of_nat (strlen text) - Z.of_nat N_GRAM + 1))
    with (length (c_str text) + 1 - N_GRAM)%nat
    by (rewrite strlen_c_str; unfold N_GRAM; lia).
  apply generate_loop_spec; [done|].
  apply Forall_forall. intros i Hi%elem_of_seq. rewrite strlen_c_str. lia.
Qed.

(** ** Counting with a mapping *)

Lemma count_up_lookup m k j :
  count_up m k !! j
  = if decide (j = k) then Some (default 0 (m !! k) + 1) else m !! j.
Proof.
  unfold count_up. destruct (m !! k) as [c|] eqn:E; simpl; case_decide as Hj; subst.
  - by rewrite lookup_insert_eq.
  - by rewrite lookup_insert_ne.
  - by rewrite lookup_insert_eq.
  - by rewrite lookup_insert_ne.
Qed.

Lemma occ_nonneg k ws : 0 <= occ k ws.
Proof. unfold occ. lia. Qed.

Lemma occ_cons k w ws :
  occ k (w :: ws) = (if decide (w = k) then 1 else 0) + occ k ws.
Proof.
  unfold occ. simpl. case_bool_decide; case_decide; try done; simpl; lia.
Qed.

Lemma occ_zero k ws : occ k ws = 0 ↔ k ∉ ws.
Proof.
  induction ws as [|w ws IH]; [by split; [intros; apply not_elem_of_nil|]|].
  rewrite occ_cons, not_elem_of_cons. pose proof (occ_nonneg k ws).
  case_decide as Hw; [subst|].
  - split; [lia|]. by intros [? _].
  - rewrite Z.add_0_l, IH. split; [intros ?; split; [congruence|done]|by intros [_ ?]].
Qed.

Lemma foldl_count_up_lookup ws m k :
  (∀ j c, m !! j = Some c → 0 < c) →
  foldl count_up m ws !! k
  = (if default 0 (m !! k) + occ k ws =? 0 then None
     else Some (default 0 (m !! k) + occ k ws)).
Proof.
  revert m. induction ws as [|w ws IH]; intros m Hm.
  - simpl. change (occ k []) with 0. rewrite Z.add_0_r.
    destruct (m !! k) as [c|] eqn:E; simpl; [|done].
    apply Hm in E. destruct (c =? 0) eqn:E'; [lia|done].
  - simpl. rewrite IH.
    + rewrite count_up_lookup, occ_cons.
      destruct (decide (w = k)) as [->|Hne].
      * rewrite decide_True by done. simpl. by rewrite Z.add_assoc.
      * rewrite decide_False by congruence. done.
    + intros j c. rewrite count_up_lookup. case_decide; [|apply Hm].
      intros [= <-]. destruct (m !! w) as [c|] eqn:E; simpl; [|lia].
      apply Hm in E. lia.
Qed.

(** ** Sums *)

Lemma Zsum_cons x l : Zsum (x :: l) = x + Zsum l.
Proof. done. Qed.

Lemma Zsum_app l1 l2 : Zsum (l1 ++ l2) = Zsum l1 + Zsum l2.
Proof.
  induction l1 as [|x l1 IH]; [done|].
  rewrite <- app_comm_cons, !Zsum_cons, IH. lia.
Qed.

Lemma Zsum_perm l1 l2 : l1 ≡ₚ l2 → Zsum l1 = Zsum l2.
Proof. induction 1; rewrite ?Zsum_cons; lia. Qed.

Lemma Zsum_le {A} (f g : A → Z) l :
  (∀ x, x ∈ l → f x <= g x) → Zsum (f <$> l) <= Zsum (g <$> l).
Proof.
  induction l as [|x l IH]; intros H; [done|].
  rewrite !fmap_cons, !Zsum_cons.
  pose proof (H x (list_elem_of_here _ _)).
  assert (∀ y, y ∈ l → f y <= g y) as H' by (intros; apply H; by right).
  specialize (IH H'). lia.
Qed.

Lemma Zsum_nonneg {A} (f : A → Z) l :
  (∀ x, x ∈ l → 0 <= f x) → 0 <= Zsum (f <$> l).
Proof.
  induction l as [|x l IH]; intros H; [done|].
  rewrite fmap_cons, Zsum_cons.
  pose proof (H x (list_elem_of_here _ _)).
  assert (∀ y, y ∈ l → 0 <= f y) as H' by (intros; apply H; by right).
  specialize (IH H'). lia.
Qed.

Lemma Zsum_ext {A} (f g : A → Z) l :
  (∀ x, x ∈ l → f x = g x) → Zsum (f <$> l) = Zsum (g <$> l).
Proof.
  induction l as [|x l IH]; intros H; [done|].
  rewrite !fmap_cons, !Zsum_cons.
  rewrite (H x) by left. rewrite IH; [done|]. intros; apply H; by right.
Qed.

Lemma foldl_add_Zsum {A} (f : A → Z) a l :
  foldl (fun acc x => acc + f x) a l = a + Zsum (f <$> l).
Proof.
  revert a. induction l as [|x l IH]; intros a.
  - simpl. change (Zsum []) with 0. lia.
  - rewrite fmap_cons, Zsum_cons. simpl. rewrite IH. lia.
Qed.

Lemma foldl_nested {A B C} (f : A → C → A) (g : B → list C) a l :
  foldl (fun acc i => foldl f acc (g i)) a l = foldl f a (mjoin (g <$> l)).
Proof.
  revert a. induction l as [|i l IH]; intros a; simpl; [done|].
  by rewrite foldl_app, IH.
Qed.

Lemma buckets_table ht :
  length (table ht) = Z.to_nat (size ht) →
  (fun i => bucket ht (Z.of_nat i)) <$> seq 0 (Z.to_nat (size ht)) = table ht.
Proof.
  intros Hlen. apply list_eq. intros i. rewrite list_lookup_fmap.
  destruct (decide (i < length (table ht))%nat) as [Hlt|Hge].
  - rewrite lookup_seq_lt by lia. simpl. by rewrite lookup_bucket.
  - rewrite lookup_seq_ge by lia. simpl. symmetry. apply lookup_ge_None. lia.
Qed.

Lemma add_counts_sum ht a :
  length (table ht) = Z.to_nat (size ht) →
  add_counts ht a = a + Zsum (count <$> nodes ht).
Proof.
  intros Hlen. unfold add_counts.
  rewrite (foldl_nested (fun u c => u + count c) (fun i => bucket ht (Z.of_nat i))).
  by rewrite buckets_table, foldl_add_Zsum.
Qed.

Lemma get_union_count_sum ht1 ht2 :
  wf_table ht1 → wf_table ht2 →
  get_union_count ht1 ht2
  = Zsum (count <$> nodes ht1) + Zsum (count <$> nodes ht2).
Proof.
  intros (_ & H1 & _) (_ & H2 & _). unfold get_union_count.
  rewrite !add_counts_sum by done. lia.
Qed.

Lemma get_intersection_count_sum ht1 ht2 :
  wf_table ht1 → wf_table ht2 →
  get_intersection_count ht1 ht2
  = Zsum (share (shingle_map ht2) <$> (entry <$> nodes ht1)).
Proof.
  intros (_ & H1 & _) Hwf2. unfold get_intersection_count.
  rewrite (foldl_nested
             (fun acc cur => acc + match_in_chain cur
                (bucket ht2 (hash_function (gram cur) (size ht2))))
             (fun i => bucket ht1 (Z.of_nat i))).
  rewrite buckets_table by done. fold (nodes ht1).
  rewrite foldl_add_Zsum, Z.add_0_l, <- list_fmap_compose.
  apply Zsum_ext. intros node _. simpl.
  rewrite match_in_chain_count. unfold share. simpl.
  rewrite <- (chain_count_spec ht2 (key node) Hwf2).
  by rewrite <- (hash_function_c_str (gram node)).
Qed.

Lemma bag_total_Zsum m : bag_total m = Zsum ((map_to_list m).*2).
Proof.
  unfold bag_total. rewrite map_fold_foldr.
  induction (map_to_list m) as [|[k c] l IH]; [done|].
  rewrite fmap_cons, Zsum_cons. simpl. rewrite IH. lia.
Qed.

Lemma bag_total_empty : bag_total ∅ = 0.
Proof. by rewrite bag_total_Zsum, map_to_list_empty. Qed.

Lemma bag_total_insert m k c :
  m !! k = None → bag_total (<[k := c]> m) = c + bag_total m.
Proof.
  intros H. rewrite !bag_total_Zsum.
  by rewrite (Zsum_perm _ _ (fmap_Permutation snd _ _ (map_to_list_insert m k c H))).
Qed.

Lemma bag_total_list_to_map (l : list (list byte * Z)) :
  NoDup l.*1 → bag_total (list_to_map l) = Zsum l.*2.
Proof.
  intros H. rewrite bag_total_Zsum.
  apply Zsum_perm, fmap_Permutation. by apply map_to_list_to_map.
Qed.

Lemma snd_entries l : (entry <$> l).*2 = count <$> l.
Proof. by rewrite <- list_fmap_compose. Qed.

Lemma fst_entries l : (entry <$> l).*1 = key <$> l.
Proof. by rewrite <- list_fmap_compose. Qed.

Lemma bag_total_shingle_map ht :
  wf_table ht → bag_total (shingle_map ht) = Zsum (count <$> nodes ht).
Proof.
  intros (_ & _ & _ & Hnd & _). unfold shingle_map.
  rewrite bag_total_list_to_map, snd_entries; [done|]. by rewrite fst_entries.
Qed.

Lemma spec_intersection_share a b :
  spec_intersection a b = Zsum (share b <$> map_to_list a).
Proof.
  unfold spec_intersection.
  induction a as [|k c a Hk IH] using map_ind.
  - assert (intersection_with (fun x y => Some (Z.min x y)) (∅ : gmap (list byte) Z) b = ∅) as ->.
    { apply map_eq. intros j. by rewrite lookup_intersection_with, !lookup_empty. }
    by rewrite bag_total_empty, map_to_list_empty.
  - rewrite (Zsum_perm _ _ (fmap_Permutation (share b) _ _ (map_to_list_insert a k c Hk))).
    rewrite fmap_cons, Zsum_cons, <- IH.
    unfold share at 1. simpl.
    destruct (b !! k) as [c'|] eqn:Hb.
    + assert (intersection_with (fun x y => Some (Z.min x y)) (<[k := c]> a) b
              = <[k := Z.min c c']> (intersection_with (fun x y => Some (Z.min x y)) a b)) as ->.
      { apply map_eq. intros j. rewrite lookup_intersection_with.
        destruct (decide (j = k)) as [->|Hne].
        - by rewrite !lookup_insert_eq, Hb.
        - by rewrite !lookup_insert_ne, lookup_intersection_with by done. }
      apply bag_total_insert. by rewrite lookup_intersection_with, Hk.
    + assert (intersection_with (fun x y => Some (Z.min x y)) (<[k := c]> a) b
              = intersection_with (fun x y => Some (Z.min x y)) a b) as ->; [|lia].
      apply map_eq. intros j. rewrite !lookup_intersection_with.
      destruct (decide (j = k)) as [->|Hne].
      * by rewrite lookup_insert_eq, Hb, Hk.
      * by rewrite lookup_insert_ne by done.
Qed.

(** The two counters of the program, on the mappings of the tables. *)
Lemma get_intersection_count_spec ht1 ht2 :
  wf_table ht1 → wf_table ht2 →
  get_intersection_count ht1 ht2
  = spec_intersection (shingle_map ht1) (shingle_map ht2).
Proof.
  intros Hwf1 Hwf2. rewrite get_intersection_count_sum by done.
  rewrite spec_intersection_share. apply Zsum_perm, fmap_Permutation.
  symmetry. apply map_to_list_to_map. rewrite fst_entries.
  by destruct Hwf1 as (_ & _ & _ & ? & _).
Qed.

Lemma get_union_count_spec ht1 ht2 :
  wf_table ht1 → wf_table ht2 →
  get_union_count ht1 ht2
  = bag_total (shingle_map ht1) + bag_total (shingle_map ht2).
Proof.
  intros Hwf1 Hwf2. rewrite get_union_count_sum by done.
  by rewrite !bag_total_shingle_map.
Qed.

Lemma calculate_jaccard_similarity_spec ht1 ht2 :
  wf_table ht1 → wf_table ht2 →
  calculate_jaccard_similarity ht1 ht2
  = spec_score (shingle_map ht1) (shingle_map ht2).
Proof.
  intros Hwf1 Hwf2. unfold calculate_jaccard_similarity, spec_score, spec_union.
  by rewrite get_intersection_count_spec, get_union_count_spec.
Qed.

(** ** Arithmetic of the two counters *)

Lemma spec_intersection_comm a b : spec_intersection a b = spec_intersection b a.
Proof.
  unfold spec_intersection. f_equal. apply map_eq. intros k.
  rewrite !lookup_intersection_with.
  destruct (a !! k), (b !! k); simpl; try done. by rewrite Z.min_comm.
Qed.

Lemma spec_union_comm a b : spec_union a b = spec_union b a.
Proof. unfold spec_union. rewrite (spec_intersection_comm a b). lia. Qed.

Lemma spec_score_comm a b : spec_score a b = spec_score b a.
Proof.
  unfold spec_score. by rewrite (spec_union_comm a b), (spec_intersection_comm a b).
Qed.

Lemma positive_shingle_map ht : wf_table ht → positive_bag (shingle_map ht).
Proof.
  intros (_ & _ & _ & Hnd & Hpos) k c Hk. unfold shingle_map in Hk.
  apply elem_of_list_to_map_2, list_elem_of_fmap in Hk as (node & [= -> ->] & Hin).
  by apply Hpos.
Qed.

Lemma spec_intersection_bounds a b :
  positive_bag a → positive_bag b →
  0 <= spec_intersection a b <= bag_total a.
Proof.
  intros Ha Hb. rewrite spec_intersection_share, bag_total_Zsum.
  assert (∀ kc, kc ∈ map_to_list a → 0 <= share b kc <= kc.2) as H.
  { intros [k c] Hin%elem_of_map_to_list. apply Ha in Hin. unfold share. simpl.
    destruct (b !! k) as [c'|] eqn:E; [|lia]. apply Hb in E. lia. }
  split.
  - apply Zsum_nonneg. intros kc Hin. by apply H.
  - apply Zsum_le. intros kc Hin. by apply H.
Qed.

Lemma spec_intersection_self a :
  positive_bag a → spec_intersection a a = bag_total a.
Proof.
  intros Ha. rewrite spec_intersection_share, bag_total_Zsum.
  apply Zsum_ext. intros [k c] Hin%elem_of_map_to_list.
  unfold share. simpl. rewrite Hin. lia.
Qed.

Lemma bag_total_nonneg a : positive_bag a → 0 <= bag_total a.
Proof.
  intros Ha. pose proof (spec_intersection_bounds a a Ha Ha). lia.
Qed.

(** The intersection never exceeds the union, and the union is zero only
    for two empty bags. *)
Lemma spec_counts_ordered a b :
  positive_bag a → positive_bag b →
  0 <= spec_intersection a b <= spec_union a b
  ∧ spec_union a b <= bag_total a + bag_total b.
Proof.
  intros Ha Hb. unfold spec_union.
  pose proof (spec_intersection_bounds a b Ha Hb).
  pose proof (spec_intersection_bounds b a Hb Ha) as H'.
  rewrite (spec_intersection_comm b a) in H'. lia.
Qed.

Lemma bag_total_count_up m k : bag_total (count_up m k) = bag_total m + 1.
Proof.
  unfold count_up. destruct (m !! k) as [c|] eqn:E.
  - rewrite <- (insert_delete_eq m k (c + 1)).
    rewrite bag_total_insert by apply lookup_delete_eq.
    rewrite <- (insert_id m k c E) at 2.
    rewrite <- (insert_delete_eq m k c).
    rewrite bag_total_insert by apply lookup_delete_eq. lia.
  - rewrite bag_total_insert by done. lia.
Qed.

Lemma bag_total_foldl_count_up ws m :
  bag_total (foldl count_up m ws) = bag_total m + Z.of_nat (length ws).
Proof.
  revert m. induction ws as [|w ws IH]; intros m; simpl; [lia|].
  rewrite IH, bag_total_count_up. lia.
Qed.

Lemma length_windows n s : length (windows n s) = (length s + 1 - n)%nat.
Proof. unfold windows. by rewrite length_fmap, length_seq. Qed.

(** ** Binary32 arithmetic *)

Lemma digits2_pos_bounds p :
  2 ^ (Zpos (digits2_pos p) - 1) <= Zpos p < 2 ^ Zpos (digits2_pos p).
Proof.
  induction p as [p IH|p IH|]; simpl digits2_pos.
  - rewrite Pos2Z.inj_succ. replace (Z.succ (Zpos (digits2_pos p)) - 1)
      with (Z.succ (Zpos (digits2_pos p) - 1)) by lia.
    rewrite !Z.pow_succ_r by lia. lia.
  - rewrite Pos2Z.inj_succ. replace (Z.succ (Zpos (digits2_pos p)) - 1)
      with (Z.succ (Zpos (digits2_pos p) - 1)) by lia.
    rewrite !Z.pow_succ_r by lia. lia.
  - simpl. lia.
Qed.

Lemma digits2_pos_unique p d :
  0 < d → 2 ^ (d - 1) <= Zpos p < 2 ^ d → Zpos (digits2_pos p) = d.
Proof.
  intros Hd [Hlo Hhi]. pose proof (digits2_pos_bounds p) as [Glo Ghi].
  destruct (Z.lt_trichotomy (Zpos (digits2_pos p)) d) as [Hlt|[Heq|Hgt]]; [|done|].
  - assert (2 ^ Zpos (digits2_pos p) <= 2 ^ (d - 1)) by (apply Z.pow_le_mono_r; lia).
    lia.
  - assert (2 ^ d <= 2 ^ (Zpos (digits2_pos p) - 1)) by (apply Z.pow_le_mono_r; lia).
    lia.
Qed.

Lemma loc_of_shr_record_of_loc m l :
  loc_of_shr_record (shr_record_of_loc m l) = l.
Proof. by destruct l as [|[]]. Qed.

Lemma shr_m_record_of_loc m l : shr_m (shr_record_of_loc m l) = m.
Proof. by destruct l as [|[]]. Qed.

(** A significand of exactly 24 bits is not shifted. *)
Lemma shr_fexp_24 q e l :
  2 ^ 23 <= Zpos q < 2 ^ 24 → -149 <= e →
  shr_fexp prec32 emax32 (Zpos q) e l = (shr_record_of_loc (Zpos q) l, e).
Proof.
  intros Hq He. unfold shr_fexp. simpl Zdigits2.
  rewrite (digits2_pos_unique q 24) by lia.
  replace (fexp prec32 emax32 (24 + e) - e) with 0
    by (unfold fexp, emin, prec32, emax32; lia).
  done.
Qed.

(** A significand of 25 bits is shifted by one place. *)
Lemma shr_fexp_25 q e l :
  2 ^ 24 <= Zpos q < 2 ^ 25 → -150 <= e →
  shr_fexp prec32 emax32 (Zpos q) e l
  = (shr_1 (shr_record_of_loc (Zpos q) l), e + 1).
Proof.
  intros Hq He. unfold shr_fexp. simpl Zdigits2.
  rewrite (digits2_pos_unique q 25) by lia.
  replace (fexp prec32 emax32 (25 + e) - e) with 1
    by (unfold fexp, emin, prec32, emax32; lia).
  done.
Qed.

Lemma round_nearest_even_cases m l :
  round_nearest_even m l = m ∨ round_nearest_even m l = m + 1.
Proof. destruct l as [|[]]; simpl; auto. destruct (Z.even m); auto. Qed.

(** Rounding a 24-bit significand: it stays, or goes up by one unit, which
    may carry into the next binade. *)
Lemma binary_round_aux_24 q e l :
  2 ^ 23 <= Zpos q < 2 ^ 24 → -149 <= e <= 103 →
  ∃ m e', binary_round_aux prec32 emax32 false (Zpos q) e l = S754_finite false m e'
          ∧ 2 ^ 23 <= Zpos m < 2 ^ 24
          ∧ (e' = e ∨ (e' = e + 1 ∧ m = 8388608%positive))
          ∧ (l = loc_Exact → m = q ∧ e' = e).
Proof.
  intros Hq He. unfold binary_round_aux. rewrite shr_fexp_24 by lia.
  rewrite shr_m_record_of_loc, loc_of_shr_record_of_loc.
  assert (round_nearest_even (Zpos q) l = Zpos q
          ∨ round_nearest_even (Zpos q) l = Zpos (q + 1)) as [Hr|Hr].
  { destruct (round_nearest_even_cases (Zpos q) l) as [->| ->]; auto. }
  - rewrite Hr, shr_fexp_24 by lia. simpl shr_m.
    assert ((e <=? emax32 - prec32) = true) as -> by (unfold emax32, prec32; lia).
    exists q, e. split; [done|]. split; [lia|]. split; [by left|done].
  - assert (l ≠ loc_Exact) as Hl by (intros ->; simpl in Hr; lia).
    rewrite Hr. destruct (decide (Zpos (q + 1) < 2 ^ 24)) as [Hlt|Hge].
    + rewrite shr_fexp_24 by lia. simpl shr_m.
      assert ((e <=? emax32 - prec32) = true) as -> by (unfold emax32, prec32; lia).
      exists (q + 1)%positive, e. split; [done|]. split; [lia|]. split; [by left|done].
    + assert (q + 1 = 16777216)%positive as -> by lia.
      rewrite shr_fexp_25 by lia. simpl shr_m.
      assert ((e + 1 <=? emax32 - prec32) = true) as -> by (unfold emax32, prec32; lia).
      exists 8388608%positive, (e + 1). split; [done|]. split; [lia|].
      split; [by right|done].
Qed.

(** Rounding a 25-bit significand: one bit is shifted out first. *)
Lemma binary_round_aux_25 q e l :
  2 ^ 24 <= Zpos q < 2 ^ 25 → -150 <= e <= 102 →
  ∃ m e', binary_round_aux prec32 emax32 false (Zpos q) e l = S754_finite false m e'
          ∧ 2 ^ 23 <= Zpos m < 2 ^ 24
          ∧ (e' = e + 1 ∨ (e' = e + 2 ∧ m = 8388608%positive)).
Proof.
  intros Hq He.
  set (mrs := shr_1 (shr_record_of_loc (Zpos q) l)).
  assert (∃ p, shr_m mrs = Zpos p ∧ 2 ^ 23 <= Zpos p < 2 ^ 24) as (p & Hp & Hpb).
  { unfold mrs. destruct q as [p|p|]; [| |lia].
    - exists p. split; [by destruct l as [|[]]|lia].
    - exists p. split; [by destruct l as [|[]]|lia]. }
  destruct (binary_round_aux_24 p (e + 1) (loc_of_shr_record mrs))
    as (m & e' & Hr & Hm & He' & _); [done|lia|].
  exists m, e'. split; [|split; [done|]].
  - rewrite <- Hr. unfold binary_round_aux.
    rewrite shr_fexp_25, shr_fexp_24 by lia. fold mrs.
    by rewrite shr_m_record_of_loc, loc_of_shr_record_of_loc, Hp.
  - destruct He' as [->|[-> ->]]; [by left|right]. split; [lia|done].
Qed.

Lemma div_eucl_div a b : Z.div_eucl a b = (a / b, a mod b).
Proof. unfold Z.div, Z.modulo. by destruct (Z.div_eucl a b). Qed.

(** [x / x] is exactly one. *)
Lemma float_div_self m e :
  float_div (S754_finite false m e) (S754_finite false m e) = float_one.
Proof.
  unfold float_div, SFdiv, SFdiv_core_binary.
  replace (Zdigits2 (Zpos m) + e - (Zdigits2 (Zpos m) + e)) with 0 by lia.
  replace (e - e) with 0 by lia.
  change (Z.min (fexp prec32 emax32 0) 0) with (-24).
  change (0 - -24) with 24.
  rewrite Z.shiftl_mul_pow2 by lia.
  rewrite div_eucl_div, (Z.mul_comm (Zpos m)), Z.div_mul, Z.mod_mul by lia.
  assert (new_location (Zpos m) 0 = loc_Exact) as ->.
  { unfold new_location. by destruct (Z.even (Zpos m)). }
  by vm_compute.
Qed.

(** The quotient of two normal numbers [x <= y] is a normal number which is
    at most one. *)
Lemma float_div_le_one m1 e1 m2 e2 :
  2 ^ 23 <= Zpos m1 < 2 ^ 24 → 2 ^ 23 <= Zpos m2 < 2 ^ 24 →
  -100 <= e1 - e2 →
  e1 < e2 ∨ (e1 = e2 ∧ Zpos m1 <= Zpos m2) →
  ∃ m e, float_div (S754_finite false m1 e1) (S754_finite false m2 e2)
         = S754_finite false m e
         ∧ (e < -23 ∨ (e = -23 ∧ m = 8388608%positive)).
Proof.
  intros H1 H2 He Hle.
  destruct (decide (e1 = e2 ∧ m1 = m2)) as [[-> ->]|Hne].
  { rewrite float_div_self. exists 8388608%positive, (-23). split; [done|]. by right. }
  unfold float_div, SFdiv, SFdiv_core_binary. simpl Zdigits2.
  rewrite (digits2_pos_unique m1 24), (digits2_pos_unique m2 24) by lia.
  replace (Z.min (fexp prec32 emax32 (24 + e1 - (24 + e2))) (e1 - e2))
    with (e1 - e2 - 24) by (unfold fexp, emin, prec32, emax32; lia).
  replace (e1 - e2 - (e1 - e2 - 24)) with 24 by lia.
  rewrite Z.shiftl_mul_pow2 by lia.
  rewrite div_eucl_div.
  set (r := (Zpos m1 * 2 ^ 24) mod Zpos m2).
  assert (2 ^ 23 <= Zpos m1 * 2 ^ 24 / Zpos m2 < 2 ^ 25) as Hq.
  { split.
    - apply Z.div_le_lower_bound; lia.
    - apply Z.div_lt_upper_bound; lia. }
  assert (Zpos m1 < Zpos m2 → Zpos m1 * 2 ^ 24 / Zpos m2 < 2 ^ 24) as Hq'.
  { intros Hm. apply Z.div_lt_upper_bound; lia. }
  destruct (Zpos m1 * 2 ^ 24 / Zpos m2) as [|q|q]; [lia| |lia].
  simpl xorb.
  destruct (decide (Zpos q < 2 ^ 24)) as [Hlt|Hge].
  - destruct (binary_round_aux_24 q (e1 - e2 - 24) (new_location (Zpos m2) r))
      as (m & e & -> & Hm & Hcase & _); [lia|lia|].
    exists m, e. split; [done|]. destruct Hcase as [->|[-> ->]].
    + assert (e1 ≠ e2 → e1 - e2 - 24 < -23) by lia.
      destruct (decide (e1 = e2)); [|left; lia]. left. lia.
    + destruct (decide (e1 = e2)); [right; split; [lia|done]|left; lia].
  - assert (e1 < e2) as Hlt.
    { destruct Hle as [?|[-> Hm]]; [done|]. exfalso.
      assert (Zpos m1 ≠ Zpos m2) by (intros [=]; by destruct Hne).
      apply Hge, Hq'. lia. }
    destruct (binary_round_aux_25 q (e1 - e2 - 24) (new_location (Zpos m2) r))
      as (m & e & -> & Hm & Hcase); [lia|lia|].
    exists m, e. split; [done|]. destruct Hcase as [->|[-> ->]].
    + left. lia.
    + destruct (decide (e1 - e2 = -1)); [right; split; [lia|done]|left; lia].
Qed.

Lemma pos_iter_xO p k : Zpos (Pos.iter xO p k) = Zpos p * 2 ^ Zpos k.
Proof.
  induction k as [|k IH] using Pos.peano_ind.
  - simpl. lia.
  - rewrite Pos.iter_succ, Pos2Z.inj_succ, Z.pow_succ_r by lia.
    rewrite Pos2Z.inj_xO, IH. lia.
Qed.

(** An [int] below [2^24] converts without rounding, to a normal number. *)
Lemma float_of_int_normal n :
  0 < n < 2 ^ 24 →
  ∃ m e, float_of_int n = S754_finite false m e
         ∧ 2 ^ 23 <= Zpos m < 2 ^ 24 ∧ -23 <= e <= 0
         ∧ Zpos m = n * 2 ^ (- e).
Proof.
  intros Hn. destruct n as [|p|p]; [lia| |lia].
  unfold float_of_int, binary_normalize, binary_round.
  pose proof (digits2_pos_bounds p) as [Hlo Hhi].
  set (d := Zpos (digits2_pos p)) in *.
  assert (1 <= d <= 24) as Hd.
  { split; [lia|]. destruct (Z_le_gt_dec d 24) as [|Hgt]; [done|].
    assert (2 ^ 24 <= 2 ^ (d - 1)) by (apply Z.pow_le_mono_r; lia). lia. }
  replace (fexp prec32 emax32 (d + 0)) with (d - 24)
    by (unfold fexp, emin, prec32, emax32; lia).
  unfold shl_align.
  destruct (d - 24 - 0) as [|k|k] eqn:Hk; [|lia|].
  - assert (d = 24) as Hd24 by lia. rewrite Hd24 in *.
    destruct (binary_round_aux_24 p 0 loc_Exact) as (m & e & -> & Hm & _ & Hex);
      [lia|lia|].
    destruct (Hex eq_refl) as [-> ->]. exists p, 0.
    repeat split; try lia.
  - assert (Zpos k = 24 - d) as Hk' by lia.
    pose proof (pos_iter_xO p k) as Hmz. rewrite Hk' in Hmz.
    assert (2 ^ 23 <= Zpos (Pos.iter xO p k) < 2 ^ 24) as Hb.
    { rewrite Hmz.
      replace 23 with ((d - 1) + (24 - d)) by lia.
      replace 24 with (d + (24 - d)) at 4 by lia.
      rewrite !Z.pow_add_r by lia.
      assert (0 < 2 ^ (24 - d)) by (apply Z.pow_pos_nonneg; lia). nia. }
    destruct (binary_round_aux_24 (Pos.iter xO p k) (d - 24) loc_Exact)
      as (m & e & -> & Hm & _ & Hex); [lia|lia|].
    destruct (Hex eq_refl) as [-> ->]. exists (Pos.iter xO p k), (d - 24).
    repeat split; try lia. rewrite Hmz. f_equal. f_equal. lia.
Qed.

Lemma float_of_int_zero : float_of_int 0 = float_zero.
Proof. done. Qed.

(** The quotient of two [int]s [0 <= i <= u], [0 < u], both below [2^24],
    lies between zero and one. *)
Lemma float_div_range i u :
  0 <= i <= u → 0 < u < 2 ^ 24 →
  float_le float_zero (float_div (float_of_int i) (float_of_int u)) = true
  ∧ float_le (float_div (float_of_int i) (float_of_int u)) float_one = true.
Proof.
  intros Hi Hu.
  destruct (float_of_int_normal u Hu) as (m2 & e2 & -> & Hm2 & He2 & Hv2).
  destruct (decide (i = 0)) as [->|Hi0]; [done|].
  destruct (float_of_int_normal i) as (m1 & e1 & -> & Hm1 & He1 & Hv1); [lia|].
  destruct (float_div_le_one m1 e1 m2 e2) as (m & e & -> & He); [lia|lia|lia| |].
  - destruct (Z.lt_trichotomy e1 e2) as [Hlt|[Heq|Hgt]]; [by left| |].
    + right. split; [done|]. subst e2. rewrite Hv1, Hv2.
      apply Z.mul_le_mono_nonneg_r; [|lia]. apply Z.pow_nonneg. lia.
    + exfalso.
      assert (2 ^ (- e2) = 2 ^ (- e1) * 2 ^ (e1 - e2)) as Hp.
      { rewrite <- Z.pow_add_r by lia. f_equal. lia. }
      assert (2 ^ 1 <= 2 ^ (e1 - e2)) by (apply Z.pow_le_mono_r; lia).
      assert (0 < 2 ^ (- e1)) by (apply Z.pow_pos_nonneg; lia).
      rewrite Hp in Hv2. nia.
  - split; [done|].
    change float_one with (S754_finite false 8388608 (-23)).
    unfold float_le, SFleb, SFcompare.
    destruct He as [He|[-> ->]].
    + by rewrite (proj2 (Z.compare_lt_iff _ _) He).
    + done.
Qed.

(** ** Tables built from texts *)

Lemma build_table_spec text sz :
  0 < sz < 2 ^ 31 →
  wf_table (build_table text sz)
  ∧ shingle_map (build_table text sz) = spec_shingle_set N_GRAM (c_str text).
Proof.
  intros Hsz. unfold build_table, spec_shingle_set.
  destruct (generate_ngrams_spec text (create_hash_table sz) (wf_create sz Hsz))
    as [Hwf Hmap].
  split; [done|]. by rewrite Hmap, shingle_map_create.
Qed.

Lemma spec_shingle_set_lookup n s k :
  spec_shingle_set n s !! k
  = if occurrences n s k =? 0 then None else Some (occurrences n s k).
Proof.
  unfold spec_shingle_set, occurrences.
  rewrite foldl_count_up_lookup; [by rewrite lookup_empty|].
  intros j c. by rewrite lookup_empty.
Qed.

Lemma spec_shingle_set_total n s :
  bag_total (spec_shingle_set n s) = Z.of_nat (length s + 1 - n).
Proof.
  unfold spec_shingle_set.
  by rewrite bag_total_foldl_count_up, bag_total_empty, length_windows.
Qed.

Lemma spec_shingle_set_positive n s : positive_bag (spec_shingle_set n s).
Proof.
  intros k c. rewrite spec_shingle_set_lookup.
  pose proof (occ_nonneg k (windows n s)). unfold occurrences.
  destruct (occ k (windows n s) =? 0) eqn:E; [done|]. intros [= <-]. lia.
Qed.

(** The loop of [generate_ngrams] reads the text only. *)
Lemma generate_ngrams_text t1 t2 ht :
  c_str t1 = c_str t2 → generate_ngrams t1 ht = generate_ngrams t2 ht.
Proof.
  intros H. unfold generate_ngrams.
  assert (strlen t1 = strlen t2) as Hl by (by rewrite !strlen_c_str, H).
  rewrite <- Hl.
  assert (Forall (fun i => i + N_GRAM ≤ strlen t1)%nat
            (seq 0 (Z.to_nat (Z.of_nat (strlen t1) - Z.of_nat N_GRAM + 1)))) as Hall.
  { apply Forall_forall. intros i Hi%elem_of_seq. unfold N_GRAM in *. lia. }
  revert ht. induction Hall as [|i l Hi Hall IH]; intros ht; [done|].
  simpl. rewrite IH. do 2 f_equal. unfold ngram_at.
  rewrite !strncpy_window by (rewrite <- ?Hl; done). by rewrite H.
Qed.

Lemma c_str_take_terminated n content :
  c_str (take n content ++ [NUL]) = take n (c_str content).
Proof.
  rewrite <- c_str_take. generalize (take n content). intros t.
  induction t as [|c t IH]; simpl; [done|].
  destruct (is_nul c); [done|]. by rewrite IH.
Qed.

Lemma read_text_c_str content :
  c_str (read_text content) = take (Z.to_nat (MAX_FILE_SIZE - 1)) (c_str content).
Proof. apply c_str_take_terminated. Qed.

Lemma shingle_table_content c1 c2 :
  c_str c1 = c_str c2 →
  shingle_table (preprocess (read_text c1)) = shingle_table (preprocess (read_text c2)).
Proof.
  intros H. unfold shingle_table, build_table. apply generate_ngrams_text.
  by rewrite !c_str_preprocess, !read_text_c_str, H.
Qed.

Lemma main_reads_text argc c1 c2 d1 d2 ok :
  c_str c1 = c_str c2 → c_str d1 = c_str d2 →
  main argc (Some c1) (Some d1) ok = main argc (Some c2) (Some d2) ok.
Proof.
  intros Hc Hd. unfold main.
  by rewrite (shingle_table_content c1 c2 Hc), (shingle_table_content d1 d2 Hd).
Qed.

Lemma build_table_short text sz :
  (strlen text < N_GRAM)%nat → build_table text sz = create_hash_table sz.
Proof.
  intros H. unfold build_table, generate_ngrams.
  replace (Z.to_nat (Z.of_nat (strlen text) - Z.of_nat N_GRAM + 1)) with 0%nat
    by (unfold N_GRAM in *; lia).
  done.
Qed.

Lemma windows_lookup n s i :
  windows n s !! i
  = if decide (i + n ≤ length s)%nat then Some (take n (drop i s)) else None.
Proof.
  unfold windows. rewrite list_lookup_fmap. case_decide as H.
  - by rewrite lookup_seq_lt by lia.
  - by rewrite lookup_seq_ge by lia.
Qed.

Lemma windows_length n s w : w ∈ windows n s → length w = n.
Proof.
  intros (i & Hi)%list_elem_of_lookup_1. rewrite windows_lookup in Hi.
  case_decide as H; [|done]. injection Hi as <-.
  rewrite length_take, length_drop. lia.
Qed.

Lemma similarity_in_unit_interval a b sa sb :
  0 < sa < 2 ^ 31 → 0 < sb < 2 ^ 31 →
  Z.of_nat (strlen a) < MAX_FILE_SIZE → Z.of_nat (strlen b) < MAX_FILE_SIZE →
  let r := calculate_jaccard_similarity (build_table a sa) (build_table b sb) in
  float_le float_zero r = true ∧ float_le r float_one = true.
Proof.
  intros Ha Hb La Lb.
  destruct (build_table_spec a sa Ha) as [HA Ma].
  destruct (build_table_spec b sb Hb) as [HB Mb].
  cbv zeta. rewrite calculate_jaccard_similarity_spec by done.
  rewrite Ma, Mb. unfold spec_score.
  destruct (spec_counts_ordered (spec_shingle_set N_GRAM (c_str a))
              (spec_shingle_set N_GRAM (c_str b)))
    as [Hord Hup]; [apply spec_shingle_set_positive..|].
  rewrite !spec_shingle_set_total, <- !strlen_c_str in Hup.
  destruct (spec_union _ _ =? 0) eqn:E; [done|].
  apply float_div_range; [done|]. unfold MAX_FILE_SIZE, N_GRAM in *. lia.
Qed.

(** The texts handed to [generate_ngrams] by [main] fit their buffers. *)
Lemma strlen_preprocess_read_text content :
  Z.of_nat (strlen (preprocess (read_text content))) < MAX_FILE_SIZE.
Proof.
  rewrite strlen_c_str. unfold preprocess.
  rewrite c_str_remove_punctuation, c_str_to_lower_case, read_text_c_str.
  remember (Z.to_nat (MAX_FILE_SIZE - 1)) as n eqn:Hn.
  assert (Z.of_nat n = MAX_FILE_SIZE - 1) as Hn'.
  { rewrite Hn. unfold MAX_FILE_SIZE. lia. }
  pose proof (filter_length_le keep_char (lower_char <$> take n (c_str content))) as H.
  rewrite length_fmap, length_take in H. lia.
Qed.

(** Every score written by [main] lies between zero and one. *)
Lemma main_score_in_unit_interval argc original plagiarized ok r :
  written (main argc original plagiarized ok) = Some r →
  float_le float_zero r = true ∧ float_le r float_one = true.
Proof.
  unfold main. destruct (negb (argc =? 4)); [done|].
  destruct original as [o|]; [|done]. destruct plagiarized as [p|]; [|done].
  destruct ok; [|done]. cbv beta iota delta [written].
  intros H. apply (inj Some) in H. rewrite <- H. unfold shingle_table.
  apply similarity_in_unit_interval;
    try (unfold HASH_TABLE_SIZE; lia); apply strlen_preprocess_read_text.
Qed.


Lemma occ_le_length k ws : occ k ws <= Z.of_nat (length ws).
Proof.
  unfold occ. pose proof (filter_length_le (fun w => bool_decide (w = k)) ws). lia.
Qed.

(** The [int] counters of the program stay in range for texts that fit
    their buffers: the embedding of [int] by [Z] loses nothing. *)
Lemma counters_fit_int a b sa sb :
  0 < sa < 2 ^ 31 → 0 < sb < 2 ^ 31 →
  Z.of_nat (strlen a) < MAX_FILE_SIZE → Z.of_nat (strlen b) < MAX_FILE_SIZE →
  let A := build_table a sa in
  let B := build_table b sb in
  (∀ node, node ∈ nodes A → 0 < count node < 2 ^ 31)
  ∧ 0 <= get_intersection_count A B <= get_union_count A B
  ∧ get_union_count A B < 2 ^ 31.
Proof.
  intros Ha Hb La Lb A B.
  destruct (build_table_spec a sa Ha) as [HA Ma].
  destruct (build_table_spec b sb Hb) as [HB Mb].
  fold A in HA, Ma. fold B in HB, Mb.
  rewrite get_intersection_count_spec, get_union_count_spec by done.
  rewrite Ma, Mb.
  destruct (spec_counts_ordered (spec_shingle_set N_GRAM (c_str a))
              (spec_shingle_set N_GRAM (c_str b)))
    as [Hord Hup]; [apply spec_shingle_set_positive..|].
  unfold spec_union in *.
  rewrite !spec_shingle_set_total, <- !strlen_c_str in *.
  split; [|unfold MAX_FILE_SIZE, N_GRAM in *; lia].
  intros node Hin. pose proof HA as (_ & _ & _ & Hnd & Hpos).
  split; [by apply Hpos|].
  assert (shingle_map A !! key node = Some (count node)) as Hl.
  { apply elem_of_list_to_map_1; [by rewrite fst_entries|].
    apply list_elem_of_fmap. by exists node. }
  rewrite Ma, spec_shingle_set_lookup in Hl.
  destruct (occurrences N_GRAM (c_str a) (key node) =? 0); [done|].
  injection Hl as Hc. rewrite <- Hc. unfold occurrences.
  pose proof (occ_le_length (key node) (windows N_GRAM (c_str a))) as Ho.
  rewrite length_windows, <- strlen_c_str in Ho.
  unfold MAX_FILE_SIZE, N_GRAM in *. lia.
Qed.

(** * Main results *)

(** C1.  For two ShingleSets [A] and [B] (the tables built from any two
    texts), the counter of [get_intersection_count] is the sum, over the
    shingles present in both mappings, of the smaller of the two counts;
    the union is [total(A) + total(B) - Intersection]; the score is the
    [float] quotient [Intersection / Union], and [0.0] when the union is
    zero. *)
Theorem C1_score_is_intersection_over_union (a b : list byte) (sa sb : Z) :
  0 < sa < 2 ^ 31 → 0 < sb < 2 ^ 31 →
  let A := build_table a sa in
  let B := build_table b sb in
  let Intersection :=
    bag_total (intersection_with (fun x y => Some (Z.min x y))
                                 (shingle_map A) (shingle_map B)) in
  let Union := bag_total (shingle_map A) + bag_total (shingle_map B) - Intersection in
  get_intersection_count A B = Intersection
  ∧ get_union_count A B - get_intersection_count A B = Union
  ∧ calculate_jaccard_similarity A B
    = (if Union =? 0 then float_zero
       else float_div (float_of_int Intersection) (float_of_int Union)).
Proof.
  intros Ha Hb A B.
  destruct (build_table_spec a sa Ha) as [HA _].
  destruct (build_table_spec b sb Hb) as [HB _].
  fold A in HA. fold B in HB. cbv zeta.
  rewrite (calculate_jaccard_similarity_spec A B HA HB).
  rewrite (get_intersection_count_spec A B HA HB).
  rewrite (get_union_count_spec A B HA HB).
  done.
Qed.

(** C3.  Symmetry: the score of two texts does not depend on which of the
    two ShingleSets is passed first. *)
Theorem C3_similarity_symmetric (a b : list byte) (sa sb : Z) :
  0 < sa < 2 ^ 31 → 0 < sb < 2 ^ 31 →
  calculate_jaccard_similarity (build_table a sa) (build_table b sb)
  = calculate_jaccard_similarity (build_table b sb) (build_table a sa).
Proof.
  intros Ha Hb.
  destruct (build_table_spec a sa Ha) as [HA _].
  destruct (build_table_spec b sb Hb) as [HB _].
  rewrite !calculate_jaccard_similarity_spec by done.
  apply spec_score_comm.
Qed.

(** C4.  Range: for the ShingleSets of two texts that fit their buffers,
    the score [r] satisfies [0.0 <= r] and [r <= 1.0]. *)
Theorem C4_similarity_in_unit_interval (a b : list byte) (sa sb : Z) :
  0 < sa < 2 ^ 31 → 0 < sb < 2 ^ 31 →
  Z.of_nat (strlen a) < MAX_FILE_SIZE → Z.of_nat (strlen b) < MAX_FILE_SIZE →
  let r := calculate_jaccard_similarity (build_table a sa) (build_table b sb) in
  float_le float_zero r = true ∧ float_le r float_one = true.
Proof. apply similarity_in_unit_interval. Qed.

(** C5.  Identity: a text with at least one shingle (and that fits its
    buffer) has similarity exactly [1.0] with itself. *)
Theorem C5_similarity_identity (x : list byte) (sa sb : Z) :
  0 < sa < 2 ^ 31 → 0 < sb < 2 ^ 31 →
  (N_GRAM ≤ strlen x)%nat → Z.of_nat (strlen x) < MAX_FILE_SIZE →
  calculate_jaccard_similarity (build_table x sa) (build_table x sb) = float_one.
Proof.
  intros Ha Hb Hx Lx.
  destruct (build_table_spec x sa Ha) as [HA Ma].
  destruct (build_table_spec x sb Hb) as [HB Mb].
  rewrite calculate_jaccard_similarity_spec by done.
  rewrite Ma, Mb. unfold spec_score, spec_union.
  rewrite spec_intersection_self by apply spec_shingle_set_positive.
  rewrite spec_shingle_set_total, <- strlen_c_str.
  set (t := Z.of_nat (strlen x + 1 - N_GRAM)).
  assert (0 < t < 2 ^ 24) as Ht by (unfold t, MAX_FILE_SIZE, N_GRAM in *; lia).
  replace (t + t - t) with t by lia.
  assert ((t =? 0) = false) as -> by lia.
  destruct (float_of_int_normal t Ht) as (m & e & -> & _).
  apply float_div_self.
Qed.

(** C2.  Building the ShingleSet of a text: there is exactly one window at
    every offset [i] with [i + n <= len] and none elsewhere (so none at all
    when the text is shorter than [n]); every window is the [n]-byte
    substring at its offset; and the mapping of the table is obtained by
    counting the windows up one after the other, from the empty mapping. *)
Theorem C2_one_window_per_offset (text : list byte) (sz : Z) :
  0 < sz < 2 ^ 31 →
  let s := c_str text in
  (∀ i, windows N_GRAM s !! i
        = if decide (i + N_GRAM ≤ length s)%nat
          then Some (take N_GRAM (drop i s)) else None)
  ∧ (∀ w, w ∈ windows N_GRAM s → length w = N_GRAM)
  ∧ shingle_map (build_table text sz) = foldl count_up ∅ (windows N_GRAM s)
  ∧ ((length s < N_GRAM)%nat →
     nodes (build_table text sz) = [] ∧ shingle_map (build_table text sz) = ∅).
Proof.
  intros Hsz s. split; [|split; [|split]].
  - intros i. apply windows_lookup.
  - intros w. apply windows_length.
  - by destruct (build_table_spec text sz Hsz) as [_ ->].
  - intros Hlen. unfold s in Hlen. rewrite <- strlen_c_str in Hlen.
    rewrite build_table_short by done.
    by rewrite nodes_create, shingle_map_create.
Qed.

(** C7.  In the table built from a text no shingle is stored twice, the
    counter of every node is the number of windows of the text holding its
    shingle, and every shingle of the text has its node; two different
    shingles always have two different nodes, whatever slots they hash to. *)
Theorem C7_one_entry_per_shingle (text : list byte) (sz : Z) :
  0 < sz < 2 ^ 31 →
  let ht := build_table text sz in
  NoDup (key <$> nodes ht)
  ∧ (∀ node, node ∈ nodes ht →
       count node = occurrences N_GRAM (c_str text) (key node) ∧ 0 < count node)
  ∧ (∀ k, k ∈ windows N_GRAM (c_str text) →
       ∃ node, node ∈ nodes ht ∧ key node = k)
  ∧ (∀ k1 k2, k1 ∈ windows N_GRAM (c_str text) →
       k2 ∈ windows N_GRAM (c_str text) → k1 ≠ k2 →
       ∃ n1 n2, n1 ∈ nodes ht ∧ n2 ∈ nodes ht
                ∧ key n1 = k1 ∧ key n2 = k2 ∧ n1 ≠ n2).
Proof.
  intros Hsz ht. destruct (build_table_spec text sz Hsz) as [Hwf Hmap].
  fold ht in Hwf, Hmap. pose proof Hwf as (_ & _ & _ & Hnd & Hpos).
  assert (∀ k, k ∈ windows N_GRAM (c_str text) →
               ∃ node, node ∈ nodes ht ∧ key node = k) as Hex.
  { intros k Hk.
    assert (shingle_map ht !! k = Some (occurrences N_GRAM (c_str text) k)) as Hl.
    { rewrite Hmap, spec_shingle_set_lookup.
      destruct (occurrences N_GRAM (c_str text) k =? 0) eqn:E; [|done].
      apply Z.eqb_eq, occ_zero in E. by destruct E. }
    apply elem_of_list_to_map_2, list_elem_of_fmap in Hl as (node & [= -> _] & Hin).
    eauto. }
  split; [done|]. split; [|split; [done|]].
  - intros node Hin.
    assert (shingle_map ht !! key node = Some (count node)) as Hl.
    { apply elem_of_list_to_map_1; [by rewrite fst_entries|].
      apply list_elem_of_fmap. by exists node. }
    rewrite Hmap, spec_shingle_set_lookup in Hl.
    destruct (occurrences N_GRAM (c_str text) (key node) =? 0); [done|].
    injection Hl as Hc. split; [done|]. by apply Hpos.
  - intros k1 k2 H1 H2 Hne.
    destruct (Hex k1 H1) as (n1 & Hn1 & Hk1).
    destruct (Hex k2 H2) as (n2 & Hn2 & Hk2).
    exists n1, n2. repeat split; try done. congruence.
Qed.

(** C10.  For a table size that is a positive [int], [hash_function]
    returns an index from [0] to [table_size - 1]; in a table with that
    many slots the slot read by [addhash] and [get_intersection_count]
    exists. *)
Theorem C10_hash_index_in_bounds (str : list byte) (table_size : Z) :
  0 < table_size < 2 ^ 31 →
  0 <= hash_function str table_size < table_size
  ∧ (∀ ht, size ht = table_size → length (table ht) = Z.to_nat table_size →
       table ht !! Z.to_nat (hash_function str (size ht))
       = Some (bucket ht (hash_function str (size ht)))).
Proof.
  intros Hsz.
  assert (0 <= hash_function str table_size < table_size) as Hr.
  { apply hash_function_range. unfold UINT_MOD. lia. }
  split; [done|]. intros ht Hs Hl. rewrite Hs.
  rewrite <- (Z2Nat.id (hash_function str table_size)) at 2 by lia.
  apply lookup_bucket. lia.
Qed.

(** C6.  The text left by the two normalisation passes of [main] is the
    text of the input buffer with every byte replaced as the specification
    says: an uppercase letter by its lowercase counterpart, another byte
    up to [0x7F] kept if alphanumeric or space and dropped otherwise, a
    byte with the high bit set kept as it is. *)
Theorem C6_normalization_per_byte (buf : list byte) :
  c_str (remove_punctuation (to_lower_case buf))
  = List.concat (List.map spec_normalize_byte (c_str buf)).
Proof. apply c_str_preprocess. Qed.

(** C9.  A buffer [pre ++ NUL :: post] whose first NUL follows [pre] is
    treated as the buffer [pre ++ NUL]: [to_lower_case] and
    [remove_punctuation] leave the same text and do not touch [post],
    [generate_ngrams] adds the same shingles, and an input file with that
    content gives the outcome of the file [pre]. *)
Theorem C9_buffer_ends_at_first_nul (pre post : list byte) :
  NUL ∉ pre →
  let buf := pre ++ NUL :: post in
  (c_str (to_lower_case buf) = c_str (to_lower_case (pre ++ [NUL]))
   ∧ drop (length pre) (to_lower_case buf) = NUL :: post)
  ∧ (c_str (remove_punctuation buf) = c_str (remove_punctuation (pre ++ [NUL]))
     ∧ drop (S (length pre)) (remove_punctuation buf) = post)
  ∧ (∀ ht, generate_ngrams buf ht = generate_ngrams (pre ++ [NUL]) ht)
  ∧ (∀ argc other ok,
       main argc (Some buf) (Some other) ok = main argc (Some pre) (Some other) ok
       ∧ main argc (Some other) (Some buf) ok = main argc (Some other) (Some pre) ok).
Proof.
  intros Hpre buf.
  assert (c_str buf = pre) as Hbuf by (by apply c_str_app_nul).
  assert (c_str (pre ++ [NUL]) = pre) as Hpre' by (by apply c_str_app_nul).
  assert (strlen buf = length pre) as Hlen by (by rewrite strlen_c_str, Hbuf).
  split; [|split; [|split]].
  - split.
    + by rewrite !c_str_to_lower_case, Hbuf, Hpre'.
    + rewrite to_lower_case_buffer, Hbuf, Hlen.
      rewrite drop_app_length'; [|by rewrite length_fmap].
      unfold buf. by rewrite drop_app_length.
  - split.
    + by rewrite !c_str_remove_punctuation, Hbuf, Hpre'.
    + rewrite <- Hlen, remove_punctuation_tail, Hlen. unfold buf.
      rewrite cons_middle, app_assoc.
      rewrite drop_app_length'; [done|]. rewrite length_app. simpl. lia.
  - intros ht. apply generate_ngrams_text. by rewrite Hbuf, Hpre'.
  - intros argc other ok. split; apply main_reads_text; try done.
    + by rewrite Hbuf, c_str_id.
    + by rewrite Hbuf, c_str_id.
Qed.

(** * Further properties of the code *)

(** ** The driver *)

(** X1.  [main] exits with 0 exactly when it was given three arguments,
    both input files could be opened and the output file could be created;
    otherwise it exits with 1.  A score is written exactly when it exits
    with 0. *)
Theorem X1_main_exit_status (argc : Z) (original plagiarized : option (list byte))
        (output_ok : bool) :
  let out := main argc original plagiarized output_ok in
  (exit_code out = 0
   ↔ argc = 4 ∧ is_Some original ∧ is_Some plagiarized ∧ output_ok = true)
  ∧ (exit_code out = 0 ∨ exit_code out = 1)
  ∧ (is_Some (written out) ↔ exit_code out = 0).
Proof.
  cbv zeta. unfold main.
  assert (∀ P : Prop, ¬ P →
            (1 = 0 ↔ P) ∧ (1 = 0 ∨ 1 = 1) ∧ (is_Some (@None spec_float) ↔ 1 = 0))
    as Hfail.
  { intros P HP. split; [split; [lia|done]|]. split; [by right|].
    split; [by intros [? ?]|lia]. }
  destruct (argc =? 4) eqn:E; cbn [negb].
  - apply Z.eqb_eq in E.
    destruct original as [o|]; [|apply Hfail; by intros (_ & [? ?] & _)].
    destruct plagiarized as [p|]; [|apply Hfail; by intros (_ & _ & [? ?] & _)].
    destruct output_ok; [|apply Hfail; by intros (_ & _ & _ & ?)].
    cbn [exit_code written]. split; [|split; [by left|]].
    + split; [intros _|done]. repeat split; eauto.
    + split; [done|]. intros _. eauto.
  - apply Z.eqb_neq in E. apply Hfail. by intros (? & _).
Qed.

(** ** Empty tables *)

Lemma bucket_create n i : bucket (create_hash_table n) i = [].
Proof.
  unfold bucket, create_hash_table. cbn [table].
  destruct (replicate (Z.to_nat n) [] !! Z.to_nat i) as [chain|] eqn:E; [|done].
  by apply lookup_replicate in E as [-> _].
Qed.

Lemma foldl_empty_buckets {A} (f : A → NGramNode → A) n a l :
  foldl (fun acc i => foldl f acc (bucket (create_hash_table n) (Z.of_nat i))) a l = a.
Proof.
  revert a. induction l as [|i l IH]; intros a; [done|].
  simpl. by rewrite bucket_create, IH.
Qed.

(** X15.  A table fresh from [create_hash_table] has no node; its
    intersection with any table is 0, whichever comes first, and it adds
    nothing to the union count. *)
Theorem X15_empty_table_counts (n : Z) (ht : HashTable) :
  nodes (create_hash_table n) = []
  ∧ get_intersection_count (create_hash_table n) ht = 0
  ∧ get_intersection_count ht (create_hash_table n) = 0
  ∧ get_union_count (create_hash_table n) ht = add_counts ht 0
  ∧ get_union_count ht (create_hash_table n) = add_counts ht 0.
Proof.
  split; [apply nodes_create|]. split; [|split; [|split]].
  - unfold get_intersection_count. apply foldl_empty_buckets.
  - unfold get_intersection_count.
    generalize (seq 0 (Z.to_nat (size ht))). intros l.
    assert (∀ chain acc,
      foldl (fun intersection current =>
        intersection + match_in_chain current
          (bucket (create_hash_table n)
             (hash_function (gram current) (size (create_hash_table n)))))
        acc chain = acc) as Hin.
    { intros chain. induction chain as [|c chain IH]; intros acc; [done|].
      simpl. rewrite bucket_create. simpl. rewrite Z.add_0_r. apply IH. }
    induction l as [|i l IH]; [done|]. simpl. by rewrite Hin.
  - unfold get_union_count, add_counts at 2. by rewrite foldl_empty_buckets.
  - unfold get_union_count, add_counts at 1. by rewrite foldl_empty_buckets.
Qed.

(** X2.  Two texts both shorter than [N_GRAM] give two empty tables and
    the score [0.0]: the division by a zero union is not attempted. *)
Theorem X2_short_texts_score_zero (a b : list byte) (sa sb : Z) :
  (strlen a < N_GRAM)%nat → (strlen b < N_GRAM)%nat →
  nodes (build_table a sa) = [] ∧ nodes (build_table b sb) = []
  ∧ calculate_jaccard_similarity (build_table a sa) (build_table b sb)
    = float_zero.
Proof.
  intros Ha Hb. rewrite !build_table_short by done.
  rewrite !nodes_create. split; [done|]. split; [done|].
  unfold calculate_jaccard_similarity, get_intersection_count, get_union_count,
    add_counts.
  by rewrite !foldl_empty_buckets.
Qed.

(** ** Hashing *)

Lemma hash_step h c :
  ((Z.shiftl h 5 mod UINT_MOD + h) mod UINT_MOD + int_of_char c) mod UINT_MOD
  = (33 * h + int_of_char c) mod UINT_MOD.
Proof.
  rewrite Z.shiftl_mul_pow2 by lia.
  rewrite Zplus_mod_idemp_l, <- Z.add_assoc, Zplus_mod_idemp_l.
  f_equal. lia.
Qed.

(** X13.  [hash_function] is DJB2: starting from 5381, every byte of the
    string before its NUL maps the accumulator [h] to [33 * h + c] modulo
    [2^32] (the shift-and-add of the source is this product); the bytes
    from the NUL on play no part. *)
Theorem X13_hash_is_djb2 (str : list byte) (table_size : Z) :
  hash_function str table_size
  = foldl (fun h c => (33 * h + int_of_char c) mod UINT_MOD) 5381 (c_str str)
    mod (table_size mod UINT_MOD).
Proof.
  unfold hash_function. f_equal. generalize 5381.
  induction str as [|c str IH]; intros h; simpl; [done|].
  destruct (is_nul c); [done|]. simpl. by rewrite IH, hash_step.
Qed.

(** ** The normalisation passes *)

Lemma keep_lower_char c : keep_char (lower_char c) = keep_char c.
Proof.
  unfold keep_char, lower_char, int_of_char.
  destruct char_signed; destruct c; vm_compute; reflexivity.
Qed.

Lemma lower_char_idemp c : lower_char (lower_char c) = lower_char c.
Proof.
  unfold lower_char, int_of_char.
  destruct char_signed; destruct c; vm_compute; reflexivity.
Qed.

Lemma kept_lower_normalized c :
  keep_char (lower_char c) = true → normalized_char (lower_char c) = true.
Proof.
  unfold keep_char, lower_char, normalized_char, int_of_char.
  destruct char_signed; destruct c; vm_compute; congruence.
Qed.

Lemma filter_keep_lower l :
  List.filter keep_char (lower_char <$> l)
  = lower_char <$> List.filter keep_char l.
Proof.
  induction l as [|c l IH]; [done|].
  rewrite fmap_cons. cbn [List.filter]. rewrite keep_lower_char.
  destruct (keep_char c); [by rewrite fmap_cons, IH|done].
Qed.

Lemma filter_keep_idemp l :
  List.filter keep_char (List.filter keep_char l) = List.filter keep_char l.
Proof.
  induction l as [|c l IH]; [done|]. cbn [List.filter].
  destruct (keep_char c) eqn:E; [|done]. cbn [List.filter]. by rewrite E, IH.
Qed.

Lemma lower_char_fmap_idemp (l : list byte) :
  lower_char <$> (lower_char <$> l) = lower_char <$> l.
Proof.
  induction l as [|c l IH]; [done|].
  by rewrite !fmap_cons, lower_char_idemp, IH.
Qed.

(** X9.  The two passes commute on the text: stripping first and lowering
    second leaves the text that [main] gets by lowering first. *)
Theorem X9_normalisation_passes_commute (buf : list byte) :
  c_str (to_lower_case (remove_punctuation buf))
  = c_str (remove_punctuation (to_lower_case buf)).
Proof.
  rewrite c_str_to_lower_case, !c_str_remove_punctuation, c_str_to_lower_case.
  symmetry. apply filter_keep_lower.
Qed.

Lemma preprocess_text_idemp t :
  List.filter keep_char (lower_char <$> List.filter keep_char (lower_char <$> t))
  = List.filter keep_char (lower_char <$> t).
Proof.
  by rewrite !filter_keep_lower, filter_keep_idemp, lower_char_fmap_idemp.
Qed.

(** X10.  Normalising twice is normalising once: the text left by a second
    run of the two passes is the text left by the first. *)
Theorem X10_normalisation_idempotent (buf : list byte) :
  c_str (preprocess (preprocess buf)) = c_str (preprocess buf).
Proof.
  unfold preprocess.
  rewrite !c_str_remove_punctuation, !c_str_to_lower_case,
    c_str_remove_punctuation, c_str_to_lower_case.
  apply preprocess_text_idemp.
Qed.

(** X11.  A normalised text holds nothing but lowercase letters, digits,
    spaces and bytes with the high bit set: no uppercase letter, no
    punctuation and no control byte survives. *)
Theorem X11_normalised_alphabet (buf : list byte) :
  Forall (fun c => normalized_char c = true) (c_str (preprocess buf)).
Proof.
  unfold preprocess. rewrite c_str_remove_punctuation, c_str_to_lower_case.
  induction (c_str buf) as [|c l IH]; [constructor|].
  rewrite fmap_cons. cbn [List.filter].
  destruct (keep_char (lower_char c)) eqn:E; [|done].
  constructor; [by apply kept_lower_normalized|done].
Qed.

Lemma length_to_lower_case s : length (to_lower_case s) = length s.
Proof.
  induction s as [|c s IH]; [done|]. simpl.
  destruct (is_nul c); simpl; [done|]. by rewrite IH.
Qed.

Lemma length_remove_punctuation s : length (remove_punctuation s) = length s.
Proof.
  unfold remove_punctuation.
  destruct (remove_punctuation_loop_spec (S (length s)) s 0 0) as (_ & H & _).
  { lia. }
  { pose proof (strlen_le s). unfold drop. lia. }
  done.
Qed.

Lemma nul_in_buffer s : NUL ∈ s ↔ (strlen s < length s)%nat.
Proof.
  induction s as [|c s IH]; simpl.
  - split; [by intros ?%elem_of_nil|lia].
  - rewrite elem_of_cons. destruct (is_nul c) eqn:E.
    + apply is_nul_spec in E. split; [simpl; lia|]. intros _. by left.
    + apply is_nul_false in E. rewrite IH. split.
      * intros [?|?]; [congruence|lia].
      * intros ?. right. lia.
Qed.

(** X12.  Both passes work inside the array they are given: its length is
    unchanged, the text does not grow ([to_lower_case] keeps its length,
    [remove_punctuation] may shorten it), and a buffer that holds a NUL
    still holds one afterwards. *)
Theorem X12_normalisation_in_place (buf : list byte) :
  (length (to_lower_case buf) = length buf
   ∧ strlen (to_lower_case buf) = strlen buf
   ∧ (NUL ∈ buf → NUL ∈ to_lower_case buf))
  ∧ (length (remove_punctuation buf) = length buf
     ∧ (strlen (remove_punctuation buf) ≤ strlen buf)%nat
     ∧ (NUL ∈ buf → NUL ∈ remove_punctuation buf)).
Proof.
  assert (strlen (to_lower_case buf) = strlen buf) as Hl.
  { by rewrite !strlen_c_str, c_str_to_lower_case, length_fmap. }
  assert (strlen (remove_punctuation buf) ≤ strlen buf)%nat as Hr.
  { rewrite !strlen_c_str, c_str_remove_punctuation. apply filter_length_le. }
  split; [split; [|split]|split; [|split]].
  - apply length_to_lower_case.
  - done.
  - rewrite !nul_in_buffer, length_to_lower_case, Hl. done.
  - apply length_remove_punctuation.
  - done.
  - rewrite !nul_in_buffer, length_remove_punctuation. lia.
Qed.

Lemma normal_text_no_nul content : NUL ∉ normal_text content.
Proof. apply c_str_no_nul. Qed.

Lemma normal_text_fits content :
  (length (normal_text content) ≤ Z.to_nat (MAX_FILE_SIZE - 1))%nat.
Proof.
  pose proof (strlen_preprocess_read_text content) as H.
  rewrite strlen_c_str in H. unfold normal_text.
  remember (Z.to_nat (MAX_FILE_SIZE - 1)) as n eqn:Hn.
  assert (Z.of_nat n = MAX_FILE_SIZE - 1) as Hn'.
  { rewrite Hn. unfold MAX_FILE_SIZE. lia. }
  lia.
Qed.

Lemma normal_text_eq content :
  normal_text content
  = List.filter keep_char
      (lower_char <$> take (Z.to_nat (MAX_FILE_SIZE - 1)) (c_str content)).
Proof.
  unfold normal_text, preprocess.
  by rewrite c_str_remove_punctuation, c_str_to_lower_case, read_text_c_str.
Qed.

Lemma normal_text_idemp content :
  normal_text (normal_text content) = normal_text content.
Proof.
  rewrite (normal_text_eq (normal_text content)).
  rewrite (c_str_id (normal_text content)) by apply normal_text_no_nul.
  rewrite take_ge by apply normal_text_fits.
  rewrite normal_text_eq. apply preprocess_text_idemp.
Qed.

Lemma shingle_table_normal c1 c2 :
  normal_text c1 = normal_text c2 →
  shingle_table (preprocess (read_text c1)) = shingle_table (preprocess (read_text c2)).
Proof.
  unfold normal_text. intros H. unfold shingle_table, build_table.
  apply generate_ngrams_text. exact H.
Qed.

(** X17.  [main] sees its inputs through their normalised texts only:
    replacing the content of either file by its normalised text (lowercase,
    stripped, cut at the first NUL and at the buffer bound) changes neither
    the exit status nor the score. *)
Theorem X17_main_takes_normalised_texts (argc : Z) (original plagiarized : list byte)
        (output_ok : bool) :
  main argc (Some (normal_text original)) (Some (normal_text plagiarized)) output_ok
  = main argc (Some original) (Some plagiarized) output_ok.
Proof.
  unfold main.
  rewrite (shingle_table_normal (normal_text original) original)
    by apply normal_text_idemp.
  by rewrite (shingle_table_normal (normal_text plagiarized) plagiarized)
    by apply normal_text_idemp.
Qed.

(** ** Counters and score of two texts *)

Lemma similarity_of_texts a b sa sb :
  0 < sa < 2 ^ 31 → 0 < sb < 2 ^ 31 →
  calculate_jaccard_similarity (build_table a sa) (build_table b sb)
  = spec_score (spec_shingle_set N_GRAM (c_str a))
               (spec_shingle_set N_GRAM (c_str b)).
Proof.
  intros Ha Hb.
  destruct (build_table_spec a sa Ha) as [HA Ma].
  destruct (build_table_spec b sb Hb) as [HB Mb].
  by rewrite calculate_jaccard_similarity_spec, Ma, Mb.
Qed.

Lemma counters_of_texts a b sa sb :
  0 < sa < 2 ^ 31 → 0 < sb < 2 ^ 31 →
  get_intersection_count (build_table a sa) (build_table b sb)
  = spec_intersection (spec_shingle_set N_GRAM (c_str a))
                      (spec_shingle_set N_GRAM (c_str b))
  ∧ get_union_count (build_table a sa) (build_table b sb)
    = Z.of_nat (strlen a + 1 - N_GRAM) + Z.of_nat (strlen b + 1 - N_GRAM).
Proof.
  intros Ha Hb.
  destruct (build_table_spec a sa Ha) as [HA Ma].
  destruct (build_table_spec b sb Hb) as [HB Mb].
  rewrite get_intersection_count_spec, get_union_count_spec by done.
  by rewrite Ma, Mb, !spec_shingle_set_total, <- !strlen_c_str.
Qed.

(** X5.  The union count of two tables built from texts is the number of
    window positions of the two texts: [len - N_GRAM + 1] for a text of at
    least [N_GRAM] bytes, none for a shorter one. *)
Theorem X5_union_count_is_window_count (a b : list byte) (sa sb : Z) :
  0 < sa < 2 ^ 31 → 0 < sb < 2 ^ 31 →
  get_union_count (build_table a sa) (build_table b sb)
  = Z.max 0 (Z.of_nat (strlen a) - Z.of_nat N_GRAM + 1)
    + Z.max 0 (Z.of_nat (strlen b) - Z.of_nat N_GRAM + 1).
Proof.
  intros Ha Hb. destruct (counters_of_texts a b sa sb Ha Hb) as [_ ->].
  unfold N_GRAM. lia.
Qed.

(** X6.  The intersection count of two tables built from texts does not
    depend on their order, is never negative and never exceeds the number
    of windows of either text. *)
Theorem X6_intersection_count_bounds (a b : list byte) (sa sb : Z) :
  0 < sa < 2 ^ 31 → 0 < sb < 2 ^ 31 →
  let i := get_intersection_count (build_table a sa) (build_table b sb) in
  get_intersection_count (build_table b sb) (build_table a sa) = i
  ∧ 0 <= i
  ∧ i <= Z.of_nat (strlen a + 1 - N_GRAM)
  ∧ i <= Z.of_nat (strlen b + 1 - N_GRAM).
Proof.
  intros Ha Hb. cbv zeta.
  destruct (counters_of_texts a b sa sb Ha Hb) as [-> _].
  destruct (counters_of_texts b a sb sa Hb Ha) as [-> _].
  pose proof (spec_intersection_bounds _ _
    (spec_shingle_set_positive N_GRAM (c_str a))
    (spec_shingle_set_positive N_GRAM (c_str b))) as H1.
  pose proof (spec_intersection_bounds _ _
    (spec_shingle_set_positive N_GRAM (c_str b))
    (spec_shingle_set_positive N_GRAM (c_str a))) as H2.
  rewrite !spec_shingle_set_total, <- !strlen_c_str in *.
  rewrite (spec_intersection_comm (spec_shingle_set N_GRAM (c_str b))) in *.
  repeat split; lia.
Qed.

Lemma Zsum_zero_iff {A} (f : A → Z) l :
  (∀ x, x ∈ l → 0 <= f x) →
  Zsum (f <$> l) = 0 ↔ ∀ x, x ∈ l → f x = 0.
Proof.
  induction l as [|y l IH]; intros Hf.
  - split; [by intros _ x ?%elem_of_nil|done].
  - rewrite fmap_cons, Zsum_cons.
    assert (∀ x, x ∈ l → 0 <= f x) as Hf' by (intros; apply Hf; by right).
    pose proof (Hf y (list_elem_of_here _ _)).
    pose proof (Zsum_nonneg f l Hf').
    split.
    + intros Hs x [->|Hx]%elem_of_cons; [lia|]. apply IH; [done|lia|done].
    + intros Hz. rewrite (Hz y) by left.
      rewrite (proj2 (IH Hf')); [done|]. intros; apply Hz; by right.
Qed.

Lemma spec_intersection_zero a b :
  positive_bag a → positive_bag b →
  spec_intersection a b = 0 ↔ ∀ k, ¬ (is_Some (a !! k) ∧ is_Some (b !! k)).
Proof.
  intros Ha Hb. rewrite spec_intersection_share.
  assert (∀ kc, kc ∈ map_to_list a → 0 <= share b kc) as Hnn.
  { intros [k c] Hin%elem_of_map_to_list. apply Ha in Hin. unfold share. simpl.
    destruct (b !! k) as [c'|] eqn:E; [|lia]. apply Hb in E. lia. }
  rewrite (Zsum_zero_iff (share b) _ Hnn). split.
  - intros Hz k [[c Hc] [c' Hc']].
    pose proof (Hz (k, c) (proj2 (elem_of_map_to_list _ _ _) Hc)) as H.
    unfold share in H. simpl in H. rewrite Hc' in H.
    apply Ha in Hc. apply Hb in Hc'. lia.
  - intros Hd [k c] Hin%elem_of_map_to_list. unfold share. simpl.
    destruct (b !! k) as [c'|] eqn:E; [|done]. destruct (Hd k). eauto.
Qed.

Lemma spec_shingle_set_is_Some n s k :
  is_Some (spec_shingle_set n s !! k) ↔ k ∈ windows n s.
Proof.
  rewrite spec_shingle_set_lookup. unfold occurrences.
  destruct (occ k (windows n s) =? 0) eqn:E.
  - apply Z.eqb_eq, occ_zero in E. split; [by intros [? ?]|done].
  - apply Z.eqb_neq in E. rewrite occ_zero in E. split; [intros _|eauto].
    destruct (decide (k ∈ windows n s)); [done|by destruct E].
Qed.

(** The quotient of two [int]s [0 < i <= u] below [2^24] is a normal
    number, hence not zero. *)
Lemma float_div_ints_finite i u :
  0 < i <= u → u < 2 ^ 24 →
  ∃ m e, float_div (float_of_int i) (float_of_int u) = S754_finite false m e.
Proof.
  intros Hi Hu.
  destruct (float_of_int_normal u) as (m2 & e2 & -> & Hm2 & He2 & Hv2); [lia|].
  destruct (float_of_int_normal i) as (m1 & e1 & -> & Hm1 & He1 & Hv1); [lia|].
  destruct (float_div_le_one m1 e1 m2 e2) as (m & e & -> & _); [lia|lia|lia| |eauto].
  destruct (Z.lt_trichotomy e1 e2) as [Hlt|[Heq|Hgt]]; [by left| |].
  - right. split; [done|]. subst e2. rewrite Hv1, Hv2.
    apply Z.mul_le_mono_nonneg_r; [|lia]. apply Z.pow_nonneg. lia.
  - exfalso.
    assert (2 ^ (- e2) = 2 ^ (- e1) * 2 ^ (e1 - e2)) as Hp.
    { rewrite <- Z.pow_add_r by lia. f_equal. lia. }
    assert (2 ^ 1 <= 2 ^ (e1 - e2)) by (apply Z.pow_le_mono_r; lia).
    assert (0 < 2 ^ (- e1)) by (apply Z.pow_pos_nonneg; lia).
    rewrite Hp in Hv2. nia.
Qed.

(** X3.  For two texts that fit their buffers the score is [0.0] exactly
    when they have no shingle in common.  (One shared window is enough for a
    score above zero; a text without windows shares none.) *)
Theorem X3_score_zero_iff_no_common_shingle (a b : list byte) (sa sb : Z) :
  0 < sa < 2 ^ 31 → 0 < sb < 2 ^ 31 →
  Z.of_nat (strlen a) < MAX_FILE_SIZE → Z.of_nat (strlen b) < MAX_FILE_SIZE →
  calculate_jaccard_similarity (build_table a sa) (build_table b sb) = float_zero
  ↔ ∀ k, ¬ (k ∈ windows N_GRAM (c_str a) ∧ k ∈ windows N_GRAM (c_str b)).
Proof.
  intros Ha Hb La Lb. rewrite similarity_of_texts by done.
  set (A := spec_shingle_set N_GRAM (c_str a)).
  set (B := spec_shingle_set N_GRAM (c_str b)).
  assert (positive_bag A) as PA by apply spec_shingle_set_positive.
  assert (positive_bag B) as PB by apply spec_shingle_set_positive.
  destruct (spec_counts_ordered A B PA PB) as [Hord Hup].
  unfold A, B in Hup. rewrite !spec_shingle_set_total, <- !strlen_c_str in Hup.
  fold A B in Hup.
  assert ((∀ k, ¬ (k ∈ windows N_GRAM (c_str a) ∧ k ∈ windows N_GRAM (c_str b)))
          ↔ spec_intersection A B = 0) as ->.
  { rewrite (spec_intersection_zero A B PA PB). unfold A, B.
    split; intros H k; specialize (H k);
      by rewrite ?spec_shingle_set_is_Some in *. }
  unfold spec_score. destruct (spec_union A B =? 0) eqn:E.
  - apply Z.eqb_eq in E. split; [lia|done].
  - apply Z.eqb_neq in E.
    assert (spec_union A B < 2 ^ 24) as Hu
      by (unfold MAX_FILE_SIZE, N_GRAM in *; lia).
    destruct (decide (spec_intersection A B = 0)) as [->|Hi].
    + split; [done|intros _].
      destruct (float_of_int_normal (spec_union A B)) as (m & e & -> & _); [lia|].
      done.
    + destruct (float_div_ints_finite (spec_intersection A B) (spec_union A B))
        as (m & e & ->); [lia|lia|]. split; [done|lia].
Qed.

Lemma occ_perm k ws ws' : ws ≡ₚ ws' → occ k ws = occ k ws'.
Proof. induction 1; rewrite ?occ_cons; lia. Qed.

Lemma foldl_count_up_perm m ws ws' :
  positive_bag m → ws ≡ₚ ws' → foldl count_up m ws = foldl count_up m ws'.
Proof.
  intros Hm Hp. apply map_eq. intros k.
  by rewrite !foldl_count_up_lookup, (occ_perm k ws ws' Hp) by done.
Qed.

Lemma positive_bag_empty : positive_bag ∅.
Proof. intros k c. by rewrite lookup_empty. Qed.

Lemma spec_score_self m :
  positive_bag m → 0 < bag_total m < 2 ^ 24 → spec_score m m = float_one.
Proof.
  intros Hm Ht. unfold spec_score, spec_union.
  rewrite spec_intersection_self by done.
  replace (bag_total m + bag_total m - bag_total m) with (bag_total m) by lia.
  assert ((bag_total m =? 0) = false) as -> by lia.
  destruct (float_of_int_normal (bag_total m) Ht) as (mm & e & -> & _).
  apply float_div_self.
Qed.

(** X16.  The score is [1.0] as soon as the two texts have the same windows
    up to order, at least one of them: equal bags of shingles are enough,
    the texts need not be equal. *)
Theorem X16_same_bag_scores_one (a b : list byte) (sa sb : Z) :
  0 < sa < 2 ^ 31 → 0 < sb < 2 ^ 31 →
  windows N_GRAM (c_str a) ≡ₚ windows N_GRAM (c_str b) →
  (N_GRAM ≤ strlen a)%nat → Z.of_nat (strlen a) < MAX_FILE_SIZE →
  calculate_jaccard_similarity (build_table a sa) (build_table b sb) = float_one.
Proof.
  intros Ha Hb Hp Hn La. rewrite similarity_of_texts by done.
  unfold spec_shingle_set at 2.
  rewrite <- (foldl_count_up_perm ∅ _ _ positive_bag_empty Hp).
  fold (spec_shingle_set N_GRAM (c_str a)).
  apply spec_score_self; [apply spec_shingle_set_positive|].
  rewrite spec_shingle_set_total, <- strlen_c_str.
  unfold MAX_FILE_SIZE, N_GRAM in *. lia.
Qed.

(** ** Insertion *)

Lemma size_addhash ht g : size (addhash ht g) = size ht.
Proof. unfold addhash. by destruct (addhash_chain _ _). Qed.

Lemma size_generate_ngrams text ht : size (generate_ngrams text ht) = size ht.
Proof.
  unfold generate_ngrams. generalize (seq 0 (Z.to_nat (Z.of_nat (strlen text) - Z.of_nat N_GRAM + 1))).
  intros l. revert ht. induction l as [|i l IH]; intros ht; [done|].
  simpl. by rewrite IH, size_addhash.
Qed.

(** X7.  [addhash] on any table that meets the representation invariant,
    with a gram of at most [N_GRAM] bytes: the invariant still holds, the
    number of slots is unchanged, the count read for the gram is one more
    than before (1 if it was absent) and no other count has changed. *)
Theorem X7_addhash_insert_lookup (ht : HashTable) (g : list byte) :
  wf_table ht → (strlen g ≤ N_GRAM)%nat →
  wf_table (addhash ht g)
  ∧ size (addhash ht g) = size ht
  ∧ shingle_map (addhash ht g) !! c_str g
    = Some (default 0 (shingle_map ht !! c_str g) + 1)
  ∧ (∀ k, k ≠ c_str g → shingle_map (addhash ht g) !! k = shingle_map ht !! k).
Proof.
  intros Hwf Hg. destruct (addhash_spec ht g Hwf Hg) as [Hwf' Hmap].
  split; [done|]. split; [apply size_addhash|]. rewrite Hmap. split.
  - by rewrite count_up_lookup, decide_True.
  - intros k Hk. by rewrite count_up_lookup, decide_False.
Qed.

(** X14.  [generate_ngrams] adds to what the table already holds: after two
    texts the mapping counts the windows of both, and it is the same
    mapping whichever text came first. *)
Theorem X14_generate_ngrams_accumulates (t1 t2 : list byte) (ht : HashTable) :
  wf_table ht →
  shingle_map (generate_ngrams t2 (generate_ngrams t1 ht))
  = foldl count_up (shingle_map ht)
      (windows N_GRAM (c_str t1) ++ windows N_GRAM (c_str t2))
  ∧ shingle_map (generate_ngrams t2 (generate_ngrams t1 ht))
    = shingle_map (generate_ngrams t1 (generate_ngrams t2 ht)).
Proof.
  intros Hwf.
  destruct (generate_ngrams_spec t1 ht Hwf) as [Hwf1 Hm1].
  destruct (generate_ngrams_spec t2 _ Hwf1) as [_ Hm12].
  destruct (generate_ngrams_spec t2 ht Hwf) as [Hwf2 Hm2].
  destruct (generate_ngrams_spec t1 _ Hwf2) as [_ Hm21].
  rewrite Hm12, Hm1, Hm21, Hm2, <- !foldl_app. split; [done|].
  apply foldl_count_up_perm; [by apply positive_shingle_map|].
  apply Permutation_app_comm.
Qed.

Lemma built_node text sz node :
  0 < sz < 2 ^ 31 → node ∈ nodes (build_table text sz) →
  key node ∈ windows N_GRAM (c_str text).
Proof.
  intros Hsz Hin. destruct (build_table_spec text sz Hsz) as [Hwf Hmap].
  pose proof Hwf as (_ & _ & _ & Hnd & _).
  apply spec_shingle_set_is_Some. rewrite <- Hmap. exists (count node).
  apply elem_of_list_to_map_1; [by rewrite fst_entries|].
  apply list_elem_of_fmap. by exists node.
Qed.

(** X18.  In a table built from a text, the array has [size] slots, every
    node sits in the chain of the slot its own gram hashes to, and every
    stored shingle is exactly [N_GRAM] bytes long. *)
Theorem X18_nodes_in_their_slots (text : list byte) (sz : Z) :
  0 < sz < 2 ^ 31 →
  let ht := build_table text sz in
  size ht = sz ∧ length (table ht) = Z.to_nat sz
  ∧ (∀ i chain node, table ht !! i = Some chain → node ∈ chain →
       hash_function (gram node) sz = Z.of_nat i
       ∧ length (key node) = N_GRAM).
Proof.
  intros Hsz ht. destruct (build_table_spec text sz Hsz) as [Hwf _].
  fold ht in Hwf. pose proof Hwf as (_ & Hlen & Hhash & _).
  assert (size ht = sz) as Hs by apply size_generate_ngrams.
  rewrite Hs in *. split; [done|]. split; [done|].
  intros i chain node Hi Hin. split; [by apply (Hhash i chain)|].
  apply (windows_length N_GRAM (c_str text)), (built_node text sz); [done|].
  apply list_elem_of_join. exists chain. split; [done|].
  by apply list_elem_of_lookup_2 in Hi.
Qed.

(** X19.  [addhash] touches one slot only, the one its gram hashes to.  A
    gram already stored leaves the shingles of that chain in their order;
    a new gram becomes the head of the chain, in front of the nodes that
    were there. *)
Theorem X19_addhash_head_insertion (ht : HashTable) (g : list byte) :
  wf_table ht → (strlen g ≤ N_GRAM)%nat →
  let h := hash_function g (size ht) in
  (∀ i : nat, Z.of_nat i ≠ h → table (addhash ht g) !! i = table ht !! i)
  ∧ (c_str g ∈ key <$> bucket ht h →
     key <$> bucket (addhash ht g) h = key <$> bucket ht h)
  ∧ (c_str g ∉ key <$> bucket ht h →
     ∃ node, bucket (addhash ht g) h = node :: bucket ht h
             ∧ key node = c_str g ∧ count node = 1).
Proof.
  intros Hwf Hg h. pose proof Hwf as (Hsz & Hlen & _).
  assert (0 <= h < size ht) as Hh
    by (apply hash_function_range; unfold UINT_MOD; lia).
  assert (Z.to_nat h < length (table ht))%nat as Hidx by lia.
  split; [|split].
  - intros i Hi. unfold addhash. fold h.
    destruct (addhash_chain (bucket ht h) g); cbn [table];
      by rewrite list_lookup_insert_ne by lia.
  - intros Hin. unfold addhash. fold h.
    destruct (chain_count (c_str g) (bucket ht h)) as [c|] eqn:E.
    + apply chain_count_Some in E as (l1 & node & l2 & Hc & Hk & _ & Hl1).
      rewrite (addhash_chain_found _ _ _ _ _ Hc Hk Hl1).
      unfold bucket at 1. cbn [table].
      rewrite list_lookup_insert_eq by exact Hidx. cbn [default from_option id].
      by rewrite Hc, !fmap_app, !fmap_cons.
    + apply chain_count_None in E. by destruct E.
  - intros Hnot. unfold addhash. fold h.
    rewrite (addhash_chain_missing _ _ Hnot).
    unfold bucket at 1. cbn [table].
    rewrite list_lookup_insert_eq by exact Hidx. cbn [default from_option id].
    eexists. split; [done|]. split; [|done].
    by apply strncpy_fits.
Qed.

Lemma window_has_node text sz k :
  0 < sz < 2 ^ 31 → k ∈ windows N_GRAM (c_str text) →
  ∃ node, node ∈ nodes (build_table text sz) ∧ key node = k.
Proof.
  intros Hsz Hk. destruct (build_table_spec text sz Hsz) as [_ Hmap].
  apply spec_shingle_set_is_Some in Hk as [c Hc]. rewrite <- Hmap in Hc.
  apply elem_of_list_to_map_2, list_elem_of_fmap in Hc as (node & [= -> _] & Hin).
  eauto.
Qed.

Lemma length_remove_dups_le (l : list (list byte)) :
  (length (remove_dups l) ≤ length l)%nat.
Proof.
  induction l as [|x l IH]; [done|]. simpl.
  destruct (decide_rel elem_of x l); simpl; lia.
Qed.

(** X8.  A table built from a text has one node per distinct window of the
    text: as many nodes as there are different shingles, whatever their
    number ([MAX_NGRAMS] is not consulted), and never more than there are
    windows. *)
Theorem X8_one_node_per_distinct_shingle (text : list byte) (sz : Z) :
  0 < sz < 2 ^ 31 →
  length (nodes (build_table text sz))
  = length (remove_dups (windows N_GRAM (c_str text)))
  ∧ (length (nodes (build_table text sz)) ≤ strlen text + 1 - N_GRAM)%nat.
Proof.
  intros Hsz. destruct (build_table_spec text sz Hsz) as [Hwf _].
  pose proof Hwf as (_ & _ & _ & Hnd & _).
  assert (key <$> nodes (build_table text sz)
          ≡ₚ remove_dups (windows N_GRAM (c_str text))) as Hp.
  { apply NoDup_Permutation; [done|apply NoDup_remove_dups|].
    intros k. rewrite elem_of_remove_dups. split.
    - intros (node & -> & Hin)%list_elem_of_fmap. by apply (built_node text sz).
    - intros Hk. destruct (window_has_node text sz k Hsz Hk) as (node & Hin & <-).
      by apply list_elem_of_fmap_2. }
  apply Permutation_length in Hp. rewrite length_fmap in Hp.
  split; [done|]. rewrite Hp.
  pose proof (length_remove_dups_le (windows N_GRAM (c_str text))) as H.
  by rewrite length_windows, <- strlen_c_str in H.
Qed.

(** ** Reading the input files *)

Lemma length_read_text content :
  Z.of_nat (length (read_text content))
  = Z.min (Z.of_nat (length content)) 999999 + 1.
Proof.
  unfold read_text. remember (Z.to_nat (MAX_FILE_SIZE - 1)) as n eqn:Hn.
  assert (Z.of_nat n = 999999) as Hn'.
  { rewrite Hn. unfold MAX_FILE_SIZE. lia. }
  clear Hn. rewrite length_app, length_take. simpl length. lia.
Qed.

Lemma read_text_fits content :
  Z.of_nat (length content) < MAX_FILE_SIZE → read_text content = content ++ [NUL].
Proof.
  unfold read_text. remember (Z.to_nat (MAX_FILE_SIZE - 1)) as n eqn:Hn.
  assert (Z.of_nat n = MAX_FILE_SIZE - 1) as Hn'.
  { rewrite Hn. unfold MAX_FILE_SIZE. lia. }
  clear Hn. intros H. rewrite take_ge; [done|lia].
Qed.

Lemma read_text_truncates content beyond :
  MAX_FILE_SIZE - 1 <= Z.of_nat (length content) →
  read_text (content ++ beyond) = read_text content.
Proof.
  unfold read_text. remember (Z.to_nat (MAX_FILE_SIZE - 1)) as n eqn:Hn.
  assert (Z.of_nat n = MAX_FILE_SIZE - 1) as Hn'.
  { rewrite Hn. unfold MAX_FILE_SIZE. lia. }
  clear Hn. intros H. rewrite take_app_le; [done|lia].
Qed.

(** What lies beyond the bound of the buffer does not reach [main]. *)
Lemma main_truncates argc content beyond other ok :
  MAX_FILE_SIZE - 1 <= Z.of_nat (length content) →
  main argc (Some (content ++ beyond)) (Some other) ok
  = main argc (Some content) (Some other) ok
  ∧ main argc (Some other) (Some (content ++ beyond)) ok
    = main argc (Some other) (Some content) ok.
Proof.
  intros H. unfold main.
  by rewrite (read_text_truncates content beyond H).
Qed.

Lemma text_read_by_main content :
  c_str (preprocess (read_text content))
  = List.filter keep_char
      (lower_char <$> take (Z.to_nat 999999) (c_str content)).
Proof.
  unfold preprocess.
  by rewrite c_str_remove_punctuation, c_str_to_lower_case, read_text_c_str.
Qed.

(** The score [main] writes, from the contents of the two files. *)
Lemma main_score content other :
  main 4 (Some content) (Some other) true
  = {| exit_code := 0;
       written :=
         Some (spec_score
                 (spec_shingle_set N_GRAM
                    (List.filter keep_char
                       (lower_char <$> take (Z.to_nat 999999) (c_str content))))
                 (spec_shingle_set N_GRAM
                    (List.filter keep_char
                       (lower_char <$> take (Z.to_nat 999999) (c_str other))))) |}.
Proof.
  transitivity
    {| exit_code := 0;
       written :=
         Some (calculate_jaccard_similarity
                 (build_table (preprocess (read_text content)) HASH_TABLE_SIZE)
                 (build_table (preprocess (read_text other)) HASH_TABLE_SIZE)) |};
    [reflexivity|].
  rewrite similarity_of_texts by (unfold HASH_TABLE_SIZE; lia).
  by rewrite !text_read_by_main.
Qed.

(** C8.  The driver reads each input file into a buffer of at most
    [MAX_FILE_SIZE] = 1,000,000 bytes, terminator included: the buffer holds
    the first [min (len, 999,999)] bytes of the content and the NUL, so a
    file of up to 999,999 bytes is held in full and a file of exactly
    1,000,000 bytes already loses its last byte.  Truncation is silent:
    whatever follows the first 999,999 bytes changes neither the exit status
    nor the score of [main], and with both files readable and the output
    writable [main] exits with 0, whatever the lengths.  The score it writes
    is the bag Jaccard score of the normalised first 999,999 bytes (up to the
    first NUL) of the two contents. *)
Theorem C8_input_truncated_silently (content : list byte) :
  Z.of_nat (length (read_text content)) <= MAX_FILE_SIZE
  ∧ Z.of_nat (length (read_text content))
    = Z.min (Z.of_nat (length content)) 999999 + 1
  ∧ (Z.of_nat (length content) < MAX_FILE_SIZE →
     read_text content = content ++ [NUL])
  ∧ (∀ beyond, MAX_FILE_SIZE - 1 <= Z.of_nat (length content) →
       read_text (content ++ beyond) = read_text content)
  ∧ (∀ argc other ok beyond, MAX_FILE_SIZE - 1 <= Z.of_nat (length content) →
       main argc (Some (content ++ beyond)) (Some other) ok
       = main argc (Some content) (Some other) ok
       ∧ main argc (Some other) (Some (content ++ beyond)) ok
         = main argc (Some other) (Some content) ok)
  ∧ (∀ argc other ok last, Z.of_nat (length content) = 999999 →
       main argc (Some (content ++ [last])) (Some other) ok
       = main argc (Some content) (Some other) ok
       ∧ main argc (Some other) (Some (content ++ [last])) ok
         = main argc (Some other) (Some content) ok)
  ∧ (∀ other, exit_code (main 4 (Some content) (Some other) true) = 0
              ∧ exit_code (main 4 (Some other) (Some content) true) = 0)
  ∧ (∀ other,
       main 4 (Some content) (Some other) true
       = {| exit_code := 0;
            written :=
              Some (spec_score
                      (spec_shingle_set N_GRAM
                         (List.filter keep_char
                            (lower_char <$> take (Z.to_nat 999999) (c_str content))))
                      (spec_shingle_set N_GRAM
                         (List.filter keep_char
                            (lower_char <$> take (Z.to_nat 999999) (c_str other))))) |}).
Proof.
  pose proof (length_read_text content) as Hlen.
  split; [unfold MAX_FILE_SIZE; lia|]. split; [exact Hlen|].
  split; [apply read_text_fits|]. split; [intros beyond; apply read_text_truncates|].
  split; [intros argc other ok beyond; apply main_truncates|].
  split.
  { intros argc other ok last H. apply main_truncates. unfold MAX_FILE_SIZE. lia. }
  split; [intros other; split; reflexivity|].
  intros other. apply main_score.
Qed.

End Program.

(** * Instances *)

(** The scenarios of the specification, in a table of seven slots. *)

Example scenario_abcabc :
  (entry <$> nodes (build_table true text_abcabc 7))
  = [(["c"; "a"; "b"], 1); (["b"; "c"; "a"], 1); (["a"; "b"; "c"], 2)]%byte
  ∧ get_intersection_count true (build_table true text_abcabc 7)
                                (build_table true text_abcabc 7) = 4
  ∧ get_union_count (build_table true text_abcabc 7)
                    (build_table true text_abcabc 7) = 8
  ∧ calculate_jaccard_similarity true (build_table true text_abcabc 7)
                                      (build_table true text_abcabc 7) = float_one.
Proof. by vm_compute. Qed.

Example scenario_aaaa_bbbb :
  (entry <$> nodes (build_table true text_aaaa 7)) = [(["a"; "a"; "a"], 2)]%byte
  ∧ (entry <$> nodes (build_table true text_bbbb 7)) = [(["b"; "b"; "b"], 2)]%byte
  ∧ get_intersection_count true (build_table true text_aaaa 7)
                                (build_table true text_bbbb 7) = 0
  ∧ calculate_jaccard_similarity true (build_table true text_aaaa 7)
                                      (build_table true text_bbbb 7) = float_zero.
Proof. by vm_compute. Qed.

Example scenario_short_text :
  nodes (build_table true text_ab 7) = []
  ∧ calculate_jaccard_similarity true (build_table true text_ab 7)
                                      (build_table true text_ab 7) = float_zero
  ∧ calculate_jaccard_similarity true (build_table true text_ab 7)
                                      (build_table true text_aaaa 7) = float_zero.
Proof. by vm_compute. Qed.

Example scenario_case_folding :
  preprocess true text_ABC = text_abc
  ∧ calculate_jaccard_similarity true
      (build_table true (preprocess true text_ABC) 7)
      (build_table true (preprocess true text_abc) 7) = float_one.
Proof. by vm_compute. Qed.

(** Two shingles in one chain of the table of [main], each with its node. *)
Example scenario_collision :
  hash_function true (c_string ["a"; "a"; "z"]%byte) HASH_TABLE_SIZE
  = hash_function true (c_string ["a"; "c"; "8"]%byte) HASH_TABLE_SIZE
  ∧ (entry <$> bucket (shingle_table true text_aazac8)
                (hash_function true (c_string ["a"; "a"; "z"]%byte) HASH_TABLE_SIZE))
    = [(["a"; "c"; "8"], 1); (["a"; "a"; "z"], 1)]%byte.
Proof. by vm_compute. Qed.

Example scenario_embedded_nul :
  preprocess true (bytes_Ab ++ NUL :: bytes_cd)
  = ["a"; "b"; NUL; NUL; "c"; "d"]%byte.
Proof. by vm_compute. Qed.

(** Instances of the theorems that carry hypotheses. *)

Lemma C1_witness :
  0 < 7 < 2 ^ 31
  ∧ (let A := build_table true text_abcabc 7 in
     let B := build_table true text_abxabc 7 in
     let Intersection :=
       bag_total (intersection_with (fun x y => Some (Z.min x y))
                                    (shingle_map A) (shingle_map B)) in
     let Union :=
       bag_total (shingle_map A) + bag_total (shingle_map B) - Intersection in
     get_intersection_count true A B = Intersection
     ∧ get_union_count A B - get_intersection_count true A B = Union
     ∧ calculate_jaccard_similarity true A B
       = (if Union =? 0 then float_zero
          else float_div (float_of_int Intersection) (float_of_int Union))).
Proof.
  split; [lia|].
  apply (C1_score_is_intersection_over_union true text_abcabc text_abxabc 7 7); lia.
Defined.

Lemma C2_witness :
  0 < 7 < 2 ^ 31
  ∧ shingle_map (build_table true text_abcabc 7)
    = foldl count_up ∅ (windows N_GRAM (c_str text_abcabc)).
Proof.
  split; [lia|].
  apply (C2_one_window_per_offset true text_abcabc 7). lia.
Defined.

Lemma C3_witness :
  0 < 7 < 2 ^ 31
  ∧ calculate_jaccard_similarity true (build_table true text_abcabc 7)
                                      (build_table true text_abxabc 7)
    = calculate_jaccard_similarity true (build_table true text_abxabc 7)
                                        (build_table true text_abcabc 7).
Proof.
  split; [lia|].
  apply (C3_similarity_symmetric true text_abcabc text_abxabc 7 7); lia.
Defined.

Lemma C4_witness :
  (0 < 7 < 2 ^ 31 ∧ Z.of_nat (strlen text_abcabc) < MAX_FILE_SIZE
   ∧ Z.of_nat (strlen text_abxabc) < MAX_FILE_SIZE)
  ∧ (let r := calculate_jaccard_similarity true (build_table true text_abcabc 7)
                                               (build_table true text_abxabc 7) in
     float_le float_zero r = true ∧ float_le r float_one = true).
Proof.
  assert (Z.of_nat (strlen text_abcabc) < MAX_FILE_SIZE) as Ha by (vm_compute; reflexivity).
  assert (Z.of_nat (strlen text_abxabc) < MAX_FILE_SIZE) as Hb by (vm_compute; reflexivity).
  split; [repeat split; (lia || assumption)|].
  apply (C4_similarity_in_unit_interval true text_abcabc text_abxabc 7 7);
    (lia || assumption).
Defined.

Lemma C5_witness :
  (0 < 7 < 2 ^ 31 ∧ (N_GRAM ≤ strlen text_abcabc)%nat
   ∧ Z.of_nat (strlen text_abcabc) < MAX_FILE_SIZE)
  ∧ calculate_jaccard_similarity true (build_table true text_abcabc 7)
                                      (build_table true text_abcabc 7) = float_one.
Proof.
  assert (N_GRAM ≤ strlen text_abcabc)%nat as Hn by (vm_compute; lia).
  assert (Z.of_nat (strlen text_abcabc) < MAX_FILE_SIZE) as Ha by (vm_compute; reflexivity).
  split; [repeat split; (lia || assumption)|].
  apply (C5_similarity_identity true text_abcabc 7 7); (lia || assumption).
Defined.

Lemma C7_witness :
  0 < 7 < 2 ^ 31 ∧ NoDup (key <$> nodes (build_table true text_aazac8 7)).
Proof.
  split; [lia|].
  apply (C7_one_entry_per_shingle true text_aazac8 7). lia.
Defined.

Lemma C9_witness :
  (NUL ∉ bytes_Ab)
  ∧ (∀ ht, generate_ngrams true (bytes_Ab ++ NUL :: bytes_cd) ht
           = generate_ngrams true (bytes_Ab ++ [NUL]) ht).
Proof.
  assert (NUL ∉ bytes_Ab) as H.
  { unfold bytes_Ab. rewrite !not_elem_of_cons. repeat split; try discriminate.
    apply not_elem_of_nil. }
  split; [exact H|].
  apply (C9_buffer_ends_at_first_nul true bytes_Ab bytes_cd H).
Defined.

Lemma C10_witness :
  0 < HASH_TABLE_SIZE < 2 ^ 31
  ∧ 0 <= hash_function true text_abcabc HASH_TABLE_SIZE < HASH_TABLE_SIZE.
Proof.
  assert (0 < HASH_TABLE_SIZE < 2 ^ 31) as H by (unfold HASH_TABLE_SIZE; lia).
  split; [exact H|].
  apply (C10_hash_index_in_bounds true text_abcabc HASH_TABLE_SIZE H).
Defined.

(** * Further properties: across platforms, and instances *)

(** X4.  The score of two texts depends on the texts alone: neither the
    sizes of the two tables nor the signedness of plain [char] (which both
    change the slots the nodes land in) has any effect on it. *)
Theorem X4_score_depends_on_texts_only (signed signed' : bool) (a b : list byte)
        (sa sb sa' sb' : Z) :
  0 < sa < 2 ^ 31 → 0 < sb < 2 ^ 31 → 0 < sa' < 2 ^ 31 → 0 < sb' < 2 ^ 31 →
  calculate_jaccard_similarity signed (build_table signed a sa)
                                      (build_table signed b sb)
  = calculate_jaccard_similarity signed' (build_table signed' a sa')
                                         (build_table signed' b sb').
Proof.
  intros Ha Hb Ha' Hb'.
  by rewrite (similarity_of_texts signed a b sa sb),
             (similarity_of_texts signed' a b sa' sb').
Qed.

Lemma X2_witness :
  ((strlen text_ab < N_GRAM)%nat)
  ∧ calculate_jaccard_similarity true (build_table true text_ab 7)
                                      (build_table true text_ab 7) = float_zero.
Proof.
  assert (strlen text_ab < N_GRAM)%nat as H by (vm_compute; lia).
  split; [exact H|]. apply (X2_short_texts_score_zero true text_ab text_ab 7 7 H H).
Defined.

Lemma X3_witness :
  (0 < 7 < 2 ^ 31 ∧ Z.of_nat (strlen text_aaaa) < MAX_FILE_SIZE
   ∧ Z.of_nat (strlen text_bbbb) < MAX_FILE_SIZE)
  ∧ (calculate_jaccard_similarity true (build_table true text_aaaa 7)
                                       (build_table true text_bbbb 7) = float_zero
     ↔ ∀ k, ¬ (k ∈ windows N_GRAM (c_str text_aaaa)
               ∧ k ∈ windows N_GRAM (c_str text_bbbb))).
Proof.
  assert (Z.of_nat (strlen text_aaaa) < MAX_FILE_SIZE) as Ha by (vm_compute; reflexivity).
  assert (Z.of_nat (strlen text_bbbb) < MAX_FILE_SIZE) as Hb by (vm_compute; reflexivity).
  split; [repeat split; (lia || assumption)|].
  apply (X3_score_zero_iff_no_common_shingle true text_aaaa text_bbbb 7 7);
    (lia || assumption).
Defined.

Lemma X4_witness :
  (0 < 7 < 2 ^ 31 ∧ 0 < HASH_TABLE_SIZE < 2 ^ 31)
  ∧ calculate_jaccard_similarity true (build_table true text_abcabc 7)
                                      (build_table true text_abxabc 7)
    = calculate_jaccard_similarity false
        (build_table false text_abcabc HASH_TABLE_SIZE)
        (build_table false text_abxabc HASH_TABLE_SIZE).
Proof.
  assert (0 < HASH_TABLE_SIZE < 2 ^ 31) as H by (unfold HASH_TABLE_SIZE; lia).
  split; [split; [lia|exact H]|].
  apply (X4_score_depends_on_texts_only true false text_abcabc text_abxabc
           7 7 HASH_TABLE_SIZE HASH_TABLE_SIZE); (lia || exact H).
Defined.

Lemma X5_witness :
  0 < 7 < 2 ^ 31
  ∧ get_union_count (build_table true text_abcabc 7) (build_table true text_ab 7)
    = Z.max 0 (Z.of_nat (strlen text_abcabc) - Z.of_nat N_GRAM + 1)
      + Z.max 0 (Z.of_nat (strlen text_ab) - Z.of_nat N_GRAM + 1).
Proof.
  split; [lia|].
  apply (X5_union_count_is_window_count true text_abcabc text_ab 7 7); lia.
Defined.

Lemma X6_witness :
  0 < 7 < 2 ^ 31
  ∧ get_intersection_count true (build_table true text_abxabc 7)
                                (build_table true text_abcabc 7)
    = get_intersection_count true (build_table true text_abcabc 7)
                                  (build_table true text_abxabc 7).
Proof.
  split; [lia|].
  apply (X6_intersection_count_bounds true text_abcabc text_abxabc 7 7); lia.
Defined.

Lemma X7_witness :
  (wf_table true (create_hash_table 7) ∧ (strlen text_abc ≤ N_GRAM)%nat)
  ∧ wf_table true (addhash true (create_hash_table 7) text_abc).
Proof.
  assert (wf_table true (create_hash_table 7)) as Hwf by (apply wf_create; lia).
  assert (strlen text_abc ≤ N_GRAM)%nat as Hg by (vm_compute; lia).
  split; [split; assumption|].
  apply (X7_addhash_insert_lookup true (create_hash_table 7) text_abc Hwf Hg).
Defined.

Lemma X14_witness :
  wf_table true (create_hash_table 7)
  ∧ shingle_map (generate_ngrams true text_abxabc
                   (generate_ngrams true text_abcabc (create_hash_table 7)))
    = shingle_map (generate_ngrams true text_abcabc
                     (generate_ngrams true text_abxabc (create_hash_table 7))).
Proof.
  assert (wf_table true (create_hash_table 7)) as Hwf by (apply wf_create; lia).
  split; [exact Hwf|].
  apply (X14_generate_ngrams_accumulates true text_abcabc text_abxabc
           (create_hash_table 7) Hwf).
Defined.

Lemma X16_witness :
  (0 < 7 < 2 ^ 31
   ∧ windows N_GRAM (c_str text_abab) ≡ₚ windows N_GRAM (c_str text_baba)
   ∧ (N_GRAM ≤ strlen text_abab)%nat
   ∧ Z.of_nat (strlen text_abab) < MAX_FILE_SIZE)
  ∧ calculate_jaccard_similarity true (build_table true text_abab 7)
                                      (build_table true text_baba 7) = float_one.
Proof.
  assert (windows N_GRAM (c_str text_abab) ≡ₚ windows N_GRAM (c_str text_baba)) as Hp.
  { vm_compute. apply perm_swap. }
  assert (N_GRAM ≤ strlen text_abab)%nat as Hn by (vm_compute; lia).
  assert (Z.of_nat (strlen text_abab) < MAX_FILE_SIZE) as Hl by (vm_compute; reflexivity).
  split; [repeat split; (lia || assumption)|].
  apply (X16_same_bag_scores_one true text_abab text_baba 7 7);
    (lia || assumption).
Defined.

Lemma X18_witness :
  0 < 7 < 2 ^ 31 ∧ size (build_table true text_aazac8 7) = 7.
Proof.
  assert (0 < 7 < 2 ^ 31) as H by lia. split; [exact H|].
  exact (proj1 (X18_nodes_in_their_slots true text_aazac8 7 H)).
Defined.

Lemma X19_witness :
  (wf_table true (create_hash_table 7) ∧ (strlen text_abc ≤ N_GRAM)%nat)
  ∧ (∀ i : nat,
       Z.of_nat i ≠ hash_function true text_abc (size (create_hash_table 7)) →
       table (addhash true (create_hash_table 7) text_abc) !! i
       = table (create_hash_table 7) !! i).
Proof.
  assert (wf_table true (create_hash_table 7)) as Hwf by (apply wf_create; lia).
  assert (strlen text_abc ≤ N_GRAM)%nat as Hg by (vm_compute; lia).
  split; [split; assumption|].
  exact (proj1 (X19_addhash_head_insertion true (create_hash_table 7) text_abc Hwf Hg)).
Defined.

Lemma X8_witness :
  0 < 7 < 2 ^ 31
  ∧ length (nodes (build_table true text_abcabc 7))
    = length (remove_dups (windows N_GRAM (c_str text_abcabc))).
Proof.
  assert (0 < 7 < 2 ^ 31) as H by lia. split; [exact H|].
  exact (proj1 (X8_one_node_per_distinct_shingle true text_abcabc 7 H)).
Defined.
